(** * StoryLens Story Bible: a shallow embedding of [src/bible.ts]

    The aggregate store of the StoryLens extension ([bible.ts], shipped in
    [storylens-extension/src/background.ts]) is embedded function by
    function.  JavaScript values are modelled as follows.

    - Strings are [string]; one character stands for one code unit, so
      the strings of the model are those of code units below 256.
    - A plain object used as a dictionary whose enumeration order matters
      ([entities], [attrs], [style]) is an association list in own-property
      order; property reads are own-property reads.
    - The bucket [Record<string, Bible>] kept under the storage key is a
      [gmap string Bible]; an absent bucket and an empty one are the same.
    - Numbers that are only compared (hooks) are [JsNumber]; timestamps,
      spans and option values are integers.
    - [Date.now()] is read once per public operation and passed as [now].

    The service worker in the first part of [background.ts] (OAuth,
    export, append and the message router) is embedded after the store,
    as programs over the calls it makes to Chrome and to the network. *)

From Stdlib Require Import ZArith QArith List String Ascii Lia DecimalString Sorted.
From stdpp Require Import gmap strings.
Import ListNotations.
Local Open Scope string_scope.

(* ================================================================== *)
(** ** JavaScript strings *)

Module JsString.

(** White space removed by [String.prototype.trim], among the code units
    below 256: TAB, LF, VT, FF, CR, SPACE and NBSP. *)
Definition is_ws (c : ascii) : bool :=
  let n := nat_of_ascii c in
  (((9 <=? n) && (n <=? 13)) || (n =? 32) || (n =? 160))%nat.

Fixpoint trim_start (s : string) : string :=
  match s with
  | EmptyString => EmptyString
  | String c s' => if is_ws c then trim_start s' else s
  end.

Fixpoint trim_end (s : string) : string :=
  match s with
  | EmptyString => EmptyString
  | String c s' =>
      match trim_end s' with
      | EmptyString => if is_ws c then EmptyString else String c EmptyString
      | r => String c r
      end
  end.

Definition trim (s : string) : string := trim_end (trim_start s).

Definition is_upper (c : ascii) : bool :=
  let n := nat_of_ascii c in ((65 <=? n) && (n <=? 90))%nat.
Definition is_lower (c : ascii) : bool :=
  let n := nat_of_ascii c in ((97 <=? n) && (n <=? 122))%nat.
Definition is_alpha (c : ascii) : bool := is_upper c || is_lower c.
Definition is_digit (c : ascii) : bool :=
  let n := nat_of_ascii c in ((48 <=? n) && (n <=? 57))%nat.

Definition to_lower (c : ascii) : ascii :=
  if is_upper c then ascii_of_nat (nat_of_ascii c + 32) else c.

(** [/^p/i.test(s)] for a lower-case ASCII literal [p]: without the [u]
    flag no code unit from 128 on matches an ASCII letter. *)
Fixpoint starts_with_ci (p s : string) : bool :=
  match p, s with
  | EmptyString, _ => true
  | String _ _, EmptyString => false
  | String a p', String c s' => Ascii.eqb a (to_lower c) && starts_with_ci p' s'
  end.

(** [s.split(":")[0]]: the text before the first colon. *)
Fixpoint before_colon (s : string) : string :=
  match s with
  | EmptyString => EmptyString
  | String c s' => if Ascii.eqb c ":"%char then EmptyString else String c (before_colon s')
  end.

(** [/^[A-Za-z]+:/.test(s)]. *)
Fixpoint letters_then_colon (seen_letter : bool) (s : string) : bool :=
  match s with
  | EmptyString => false
  | String c s' =>
      if is_alpha c then letters_then_colon true s'
      else seen_letter && Ascii.eqb c ":"%char
  end.

(** [s.slice(0, n)] for a non-negative literal [n]. *)
Definition slice_to (n : nat) (s : string) : string := String.substring 0 n s.

(** [toLowerCase] on one code unit below 256: the ASCII capitals and the
    Latin-1 capitals, 192 to 222 without the multiplication sign. *)
Definition lower_unit (c : ascii) : ascii :=
  let n := nat_of_ascii c in
  if is_upper c || ((192 <=? n) && (n <=? 222) && negb (n =? 215))%nat
  then ascii_of_nat (n + 32) else c.

(** [s.toLowerCase()] *)
Fixpoint toLowerCase (s : string) : string :=
  match s with
  | EmptyString => EmptyString
  | String c s' => String (lower_unit c) (toLowerCase s')
  end.

(** [s.includes(q)] *)
Fixpoint includes (q s : string) : bool :=
  String.prefix q s ||
  match s with
  | EmptyString => false
  | String _ s' => includes q s'
  end.

(** [String(n)] for an integer [n]. *)
Definition of_int (n : Z) : string := NilZero.string_of_int (Z.to_int n).

(** [xs.join(sep)]. *)
Fixpoint join (sep : string) (xs : list string) : string :=
  match xs with
  | [] => ""
  | [x] => x
  | x :: rest => x ++ sep ++ join sep rest
  end.

(** A falsy string is the empty one: [s || d]. *)
Definition or_else (s d : string) : string :=
  if String.eqb s "" then d else s.

End JsString.

(* ================================================================== *)
(** ** JavaScript numbers, as far as the store compares them *)

Inductive JsNumber : Type :=
| NaN
| Infinity (negative : bool)
| Finite (q : Q).

Module JsNumber.

Definition isFinite (n : JsNumber) : bool :=
  match n with Finite _ => true | _ => false end.

(** [n >= 0 && n <= 1]; every comparison with [NaN] is false. *)
Definition in_unit (n : JsNumber) : bool :=
  match n with
  | NaN => false
  | Infinity _ => false
  | Finite q => Qle_bool 0 q && Qle_bool q 1
  end.

(** SameValueZero, the equality of [Set]. *)
Definition same (a b : JsNumber) : bool :=
  match a, b with
  | NaN, NaN => true
  | Infinity x, Infinity y => Bool.eqb x y
  | Finite p, Finite q => Qeq_bool p q
  | _, _ => false
  end.

End JsNumber.

(* ================================================================== *)
(** ** Arrays *)

Module JsArray.
Section Generic.
Context {A : Type}.

(** [Array.from(new Set(arr))]: first occurrences, in order. *)
Fixpoint uniq_from (eqb : A -> A -> bool) (seen : list A) (arr : list A) : list A :=
  match arr with
  | [] => []
  | x :: rest =>
      if existsb (eqb x) seen then uniq_from eqb seen rest
      else x :: uniq_from eqb (x :: seen) rest
  end.

Definition uniq (eqb : A -> A -> bool) (arr : list A) : list A :=
  uniq_from eqb [] arr.


(** [arr.slice(-n)] for a positive literal [n]. *)
Definition slice_last (n : nat) (arr : list A) : list A :=
  skipn (length arr - n) arr.

(** [arr.findIndex(p)]; [None] stands for -1. *)
Fixpoint findIndex (p : A -> bool) (arr : list A) : option nat :=
  match arr with
  | [] => None
  | x :: rest => if p x then Some 0 else option_map S (findIndex p rest)
  end.

(** [arr[i] = x] for an index inside the array. *)
Fixpoint set_at (i : nat) (x : A) (arr : list A) : list A :=
  match arr, i with
  | [], _ => []
  | _ :: rest, O => x :: rest
  | y :: rest, S i' => y :: set_at i' x rest
  end.

(** [arr.splice(i, 1)]. *)
Fixpoint remove_at (i : nat) (arr : list A) : list A :=
  match arr, i with
  | [], _ => []
  | _ :: rest, O => rest
  | y :: rest, S i' => y :: remove_at i' rest
  end.

(** [arr.sort(cmp)] is stable; [before x y] says that [cmp x y <= 0],
    so [x] stays in front of a later [y]. *)
Fixpoint insert_sorted (before : A -> A -> bool) (x : A) (sorted : list A) : list A :=
  match sorted with
  | [] => [x]
  | y :: rest =>
      if before x y then x :: y :: rest
      else y :: insert_sorted before x rest
  end.

Definition stable_sort (before : A -> A -> bool) (arr : list A) : list A :=
  fold_right (insert_sorted before) [] arr.
End Generic.
End JsArray.

(* ================================================================== *)
(** ** Plain objects in own-property order *)

Abbreviation JsObj V := (list (string * V)).

Module JsObj.

(** The value of a decimal digit string. *)
Fixpoint digits_value (acc : N) (s : string) : option N :=
  match s with
  | EmptyString => Some acc
  | String c s' =>
      if JsString.is_digit c
      then digits_value (acc * 10 + (N_of_ascii c - 48))%N s'
      else None
  end.

(** A property key is an array index when it is the canonical decimal
    form of an integer below 2^32 - 1; such keys enumerate first, in
    ascending order. *)
Definition array_index (k : string) : option N :=
  match k with
  | EmptyString => None
  | String c rest =>
      if Ascii.eqb c "0"%char && negb (String.eqb rest "") then None
      else
        match digits_value 0 k with
        | Some n => if (n <? 4294967295)%N then Some n else None
        | None => None
        end
  end.

Section Generic.
Context {V : Type}.

(** [o[k]] *)
Fixpoint get (k : string) (o : JsObj V) : option V :=
  match o with
  | [] => None
  | (k', v) :: rest => if String.eqb k k' then Some v else get k rest
  end.

Definition has (k : string) (o : JsObj V) : bool :=
  match get k o with Some _ => true | None => false end.

Fixpoint replace (k : string) (v : V) (o : JsObj V) : JsObj V :=
  match o with
  | [] => []
  | (k', v') :: rest =>
      if String.eqb k k' then (k', v) :: rest
      else (k', v') :: replace k v rest
  end.

(** A new index key goes in front of the first key that is not an
    index or is a larger index. *)
Fixpoint insert_index (n : N) (k : string) (v : V) (o : JsObj V) : JsObj V :=
  match o with
  | [] => [(k, v)]
  | (k', v') :: rest =>
      match array_index k' with
      | Some m =>
          if (m <? n)%N then (k', v') :: insert_index n k v rest
          else (k, v) :: o
      | None => (k, v) :: o
      end
  end.

(** [o[k] = v]: an existing property keeps its place, a new one is
    created at the end, or among the index keys if it is one. *)
Definition set (k : string) (v : V) (o : JsObj V) : JsObj V :=
  if has k o then replace k v o
  else
    match array_index k with
    | Some n => insert_index n k v o
    | None => o ++ [(k, v)]
    end.

(** [delete o[k]] *)
Definition delete (k : string) (o : JsObj V) : JsObj V :=
  List.filter (fun kv => negb (String.eqb k (fst kv))) o.

Definition keys (o : JsObj V) : list string := map fst o.
Definition values (o : JsObj V) : list V := map snd o.

(** [Object.fromEntries(entries)] *)
Definition fromEntries (entries : list (string * V)) : JsObj V :=
  fold_left (fun o kv => set (fst kv) (snd kv) o) entries [].

(** [{...a, ...b}] *)
Definition spread2 (a b : JsObj V) : JsObj V :=
  fold_left (fun o kv => set (fst kv) (snd kv) o) b a.
End Generic.
End JsObj.

(* ================================================================== *)
(** ** Types of [bible.ts] *)

Inductive BibleEntityType : Type :=
| Character | Location | Rule | Object | Concept.

Definition type_name (t : BibleEntityType) : string :=
  match t with
  | Character => "Character"
  | Location => "Location"
  | Rule => "Rule"
  | Object => "Object"
  | Concept => "Concept"
  end.

Record Evidence : Type := {
  ev_span : option (Z * Z);
  ev_quote : option string;
  ev_chapterId : option string
}.

(** An attribute value is declared [string | string[]]; [mergeAttrs] takes
    [Record<string, any>] and also tests for [null] and for other scalars,
    which [AOther] carries under their [String(v)] image. *)
Inductive AttrVal : Type :=
| AStr (s : string)
| AArr (items : list string)
| ANull
| AOther (image : string).

Record Entity : Type := {
  ent_id : string;
  ent_type : BibleEntityType;
  ent_attrs : JsObj AttrVal;
  ent_evidence : list Evidence
}.

(** The object handed to [upsertEntity]: the body guards against an empty
    [id] or [type] and against missing [attrs] and [evidence], which are
    the empty string and the empty containers here. *)
Record EntityInput : Type := {
  ei_id : string;
  ei_type : string;
  ei_attrs : JsObj AttrVal;
  ei_evidence : list Evidence
}.

Inductive Status : Type := open | closed.

Record Thread : Type := {
  thr_name : string;
  thr_status : Status;
  thr_notes : option string;
  thr_hooks : list JsNumber;
  thr_todos : list string;
  thr_updatedAt : option Z;
  thr_createdAt : option Z
}.

(** The object handed to [upsertThread].  [ti_notes] and [ti_createdAt]
    are [None] when the property is absent and [Some v] when it is an own
    property, whose value may itself be [undefined]: the spread copies it
    over the stored one either way. *)
Record ThreadInput : Type := {
  ti_name : string;
  ti_status : option Status;
  ti_notes : option (option string);
  ti_hooks : list JsNumber;
  ti_todos : list string;
  ti_createdAt : option (option Z)
}.

Inductive StyleVal : Type :=
| SNum (n : JsNumber)
| SStr (s : string)
| SArr (items : list string).

Record Bible : Type := {
  projectId : string;
  updatedAt : Z;
  schemaVersion : option Z;
  entities : JsObj Entity;
  threads : list Thread;
  style : JsObj StyleVal
}.

(** The argument of [importBible], a [Partial<Bible>]. *)
Record Incoming : Type := {
  in_entities : option (JsObj EntityInput);
  in_threads : option (list ThreadInput);
  in_style : option (JsObj StyleVal)
}.

(* ================================================================== *)
(** ** Storage and constants *)

Definition SCHEMA_VERSION : Z := 1.
Definition MAX_ENTITIES : nat := 2000.
Definition MAX_EVIDENCE_PER_ENTITY : nat := 20.
Definition MAX_THREADS : nat := 500.
Definition MAX_TODOS_PER_THREAD : nat := 40.

(** What is kept under [KEY]: one aggregate per project id. *)
Abbreviation Store := (gmap string Bible).

(* ================================================================== *)
(** ** Internal helpers *)

Definition normalizeType (t : string) : BibleEntityType :=
  let T := JsString.trim t in
  if String.eqb T "Character" then Character
  else if String.eqb T "Location" then Location
  else if String.eqb T "Rule" then Rule
  else if String.eqb T "Object" then Object
  else if String.eqb T "Concept" then Concept
  else if JsString.starts_with_ci "character:" T then Character
  else if JsString.starts_with_ci "location:" T then Location
  else if JsString.starts_with_ci "rule:" T then Rule
  else if JsString.starts_with_ci "object:" T then Object
  else Concept.

Definition ensureIdPrefix (id : string) (type : BibleEntityType) : string :=
  let hasPrefix := JsString.letters_then_colon false id in
  if hasPrefix then id else type_name type ++ ":" ++ id.

Definition uniq (arr : list string) : list string :=
  JsArray.uniq String.eqb arr.

Definition is_array (x : option AttrVal) : bool :=
  match x with Some (AArr _) => true | _ => false end.

(** [Array.isArray(x) ? x : (x != null ? [String(x)] : [])] *)
Definition as_array (x : option AttrVal) : list string :=
  match x with
  | Some (AArr items) => items
  | Some (AStr s) => [s]
  | Some (AOther image) => [image]
  | Some ANull | None => []
  end.

(** The body of the loop of [mergeAttrs] for one entry of [b]: the value
    assigned to [out[k]], or [None] when no branch assigns. *)
Definition merge_slot (av : option AttrVal) (v : AttrVal) : option AttrVal :=
  if is_array av || is_array (Some v) then
    Some (AArr (firstn 50 (uniq (as_array av ++ as_array (Some v))%list)))
  else
    match v with
    | AStr s =>
        match av with
        | Some (AStr a) =>
            if negb (String.eqb a "") && negb (String.eqb a s)
            then Some (AArr (uniq [a; s]))
            else Some (AStr s)
        | _ => Some (AStr s)
        end
    | AOther image => Some (AStr image)
    | ANull => None
    | AArr _ => None
    end.

Definition merge_entry (out : JsObj AttrVal) (kv : string * AttrVal) : JsObj AttrVal :=
  match merge_slot (JsObj.get (fst kv) out) (snd kv) with
  | Some r => JsObj.set (fst kv) r out
  | None => out
  end.

(** [out = {...a}] copies [a] in its own order, which is [a] itself. *)
Definition mergeAttrs (a b : JsObj AttrVal) : JsObj AttrVal :=
  fold_left merge_entry b a.

Definition evidence_key (e : Evidence) : string :=
  let chapter := match ev_chapterId e with Some c => c | None => "" end in
  let span :=
    match ev_span e with
    | Some (s, t) => JsString.join "," [JsString.of_int s; JsString.of_int t]
    | None => ""
    end in
  let quote := match ev_quote e with Some q => q | None => "" end in
  chapter ++ "|" ++ span ++ "|" ++ JsString.slice_to 80 quote.

(** The loop of [dedupeEvidence]: [seen] is the set of keys, [out] the
    result so far; the [break] leaves the loop once the cap is reached. *)
Fixpoint dedupe_loop (seen : list string) (out : list Evidence)
         (items : list Evidence) : list Evidence :=
  match items with
  | [] => out
  | e :: rest =>
      let k := evidence_key e in
      if existsb (String.eqb k) seen then dedupe_loop seen out rest
      else
        let out' := (out ++ [e])%list in
        if (MAX_EVIDENCE_PER_ENTITY <=? length out')%nat then out'
        else dedupe_loop (k :: seen) out' rest
  end.

Definition dedupeEvidence (items : list Evidence) : list Evidence :=
  dedupe_loop [] [] items.

Definition with_evidence (e : Entity) (ev : list Evidence) : Entity :=
  {| ent_id := ent_id e; ent_type := ent_type e;
     ent_attrs := ent_attrs e; ent_evidence := ev |}.

Definition keep_hook (n : JsNumber) : bool :=
  JsNumber.isFinite n && JsNumber.in_unit n.

Definition prune_thread (t : Thread) : Thread :=
  {| thr_name := thr_name t; thr_status := thr_status t;
     thr_notes := thr_notes t;
     thr_hooks := List.filter keep_hook (thr_hooks t);
     thr_todos := firstn MAX_TODOS_PER_THREAD (thr_todos t);
     thr_updatedAt := thr_updatedAt t; thr_createdAt := thr_createdAt t |}.

(** [Object.fromEntries(new Map(entries.slice(0, MAX_ENTITIES)))] rebuilds
    the object from a prefix of its own enumeration, which enumerates as
    that prefix (lemma [fromEntries_canonical] below). *)
Definition clamp_entities (entries : JsObj Entity) : JsObj Entity :=
  if (MAX_ENTITIES <? length entries)%nat then firstn MAX_ENTITIES entries
  else entries.

Definition clamp_threads (ts : list Thread) : list Thread :=
  if (MAX_THREADS <? length ts)%nat then JsArray.slice_last MAX_THREADS ts
  else ts.

(** [e.evidence = dedupeEvidence(e.evidence || [])] *)
Definition dedupe_entity (e : Entity) : Entity :=
  with_evidence e (dedupeEvidence (ent_evidence e)).

Definition clamp_evidence (kv : string * Entity) : string * Entity :=
  (fst kv, dedupe_entity (snd kv)).

Definition pruneBible (b : Bible) : Bible :=
  {| projectId := projectId b;
     updatedAt := updatedAt b;
     schemaVersion := schemaVersion b;
     entities := map clamp_evidence (clamp_entities (entities b));
     threads := map prune_thread (clamp_threads (threads b));
     style := style b |}.

Definition empty_bible (now : Z) (projectId : string) : Bible :=
  {| projectId := projectId; updatedAt := now;
     schemaVersion := Some SCHEMA_VERSION;
     entities := []; threads := []; style := [] |}.

Definition migrate (now : Z) (b : option Bible) (projectId : string) : Bible :=
  match b with
  | None => empty_bible now projectId
  | Some b =>
      pruneBible
        {| projectId := projectId;
           updatedAt := updatedAt b;
           schemaVersion :=
             match schemaVersion b with
             | None => Some 1%Z
             | Some v => Some v
             end;
           entities := entities b;
           threads := threads b;
           style := style b |}
  end.

(* ================================================================== *)
(** ** Persistence

    Every public function is [async] and reaches the bucket through
    [getAll] and [saveAll] only; the bucket is threaded as a state. *)

Definition IO (A : Type) : Type := Store -> A * Store.

Definition ret {A : Type} (x : A) : IO A := fun s => (x, s).

Definition bind {A B : Type} (m : IO A) (k : A -> IO B) : IO B :=
  fun s => let (x, s') := m s in k x s'.

Notation "'let!' x ':=' m 'in' k" := (bind m (fun x => k))
  (at level 10, x name, m at level 100, k at level 200).

(** The bucket left by running [m] on [s]. *)
Definition exec {A : Type} (m : IO A) (s : Store) : Store := snd (m s).

(** The value returned by running [m] on [s]. *)
Definition result {A : Type} (m : IO A) (s : Store) : A := fst (m s).

Definition getAll : IO Store := fun s => (s, s).

Definition saveAll (all : Store) : IO unit := fun _ => (tt, all).

(* ================================================================== *)
(** ** Public API *)

Definition set_entities (b : Bible) (ents : JsObj Entity) (now : Z) : Bible :=
  {| projectId := projectId b; updatedAt := now;
     schemaVersion := schemaVersion b; entities := ents;
     threads := threads b; style := style b |}.

Definition set_threads (b : Bible) (ts : list Thread) (now : Z) : Bible :=
  {| projectId := projectId b; updatedAt := now;
     schemaVersion := schemaVersion b; entities := entities b;
     threads := ts; style := style b |}.

Definition set_style (b : Bible) (st : JsObj StyleVal) : Bible :=
  {| projectId := projectId b; updatedAt := updatedAt b;
     schemaVersion := schemaVersion b; entities := entities b;
     threads := threads b; style := st |}.

(** [migrate] hands back the object it was given, so the test
    [all[projectId] !== migrated] never holds and only a missing
    aggregate is saved. *)
Definition getBible (now : Z) (projectId : string) : IO Bible :=
  let! all := getAll in
  let migrated := migrate now (all !! projectId) projectId in
  match all !! projectId with
  | None => let! _ := saveAll (<[projectId := migrated]> all) in ret migrated
  | Some _ => ret migrated
  end.

(** [{ ...b, updatedAt: now(), schemaVersion: SCHEMA_VERSION }] *)
Definition stamp (now : Z) (b : Bible) : Bible :=
  {| projectId := projectId b; updatedAt := now;
     schemaVersion := Some SCHEMA_VERSION;
     entities := entities b; threads := threads b;
     style := style b |}.

Definition putBible (now : Z) (b : Bible) : IO unit :=
  let! all := getAll in
  saveAll (<[projectId b := pruneBible (stamp now b)]> all).

Definition canonical_type (e : EntityInput) : BibleEntityType :=
  normalizeType (JsString.or_else (ei_type e) (JsString.before_colon (ei_id e))).

Definition canonical_id (e : EntityInput) : string :=
  ensureIdPrefix (ei_id e) (canonical_type e).

(** [const merged: Entity = { id, type, attrs, evidence }] over the entity
    [prev] found under the id, if any. *)
Definition merge_entity (prev : option Entity) (e : EntityInput) : Entity :=
  {| ent_id := canonical_id e;
     ent_type := canonical_type e;
     ent_attrs :=
       mergeAttrs (match prev with Some p => ent_attrs p | None => [] end)
                  (ei_attrs e);
     ent_evidence :=
       dedupeEvidence
         ((match prev with Some p => ent_evidence p | None => [] end)
            ++ ei_evidence e)%list |}.

(** The merge that [upsertEntity] performs on [b.entities], which is also
    the body of the loop of [upsertEntities]. *)
Definition upsert_into (ents : JsObj Entity) (e : EntityInput) : JsObj Entity :=
  let id := canonical_id e in
  let prev := JsObj.get id ents in
  JsObj.set id (merge_entity prev e) ents.

Definition upsertEntity (now : Z) (projectId : string) (e : EntityInput) : IO unit :=
  let! b := getBible now projectId in
  putBible now (set_entities b (upsert_into (entities b) e) now).

Definition addEvidence (now : Z) (projectId id : string) (ev : Evidence) : IO unit :=
  let! b := getBible now projectId in
  match JsObj.get id (entities b) with
  | None => ret tt
  | Some cur =>
      let cur' := with_evidence cur (dedupeEvidence (ent_evidence cur ++ [ev])%list) in
      putBible now (set_entities b (JsObj.set id cur' (entities b)) now)
  end.

Definition upsertEntities (now : Z) (projectId : string)
           (es : list EntityInput) : IO unit :=
  match es with
  | [] => ret tt
  | _ :: _ =>
      let! b := getBible now projectId in
      putBible now (set_entities b (fold_left upsert_into es (entities b)) now)
  end.

Definition has_name (name : string) (t : Thread) : bool :=
  String.eqb (thr_name t) name.

Definition new_thread (now : Z) (name : string) : Thread :=
  {| thr_name := name; thr_status := open; thr_notes := None;
     thr_hooks := []; thr_todos := [];
     thr_updatedAt := None; thr_createdAt := Some now |}.

(** [{...base, ...t, status, hooks, todos, updatedAt}]: [name] is an own
    property of [t] whenever the function gets this far. *)
Definition merge_thread (now : Z) (base : Thread) (t : ThreadInput) : Thread :=
  {| thr_name := ti_name t;
     thr_status := match ti_status t with Some s => s | None => thr_status base end;
     thr_notes := match ti_notes t with Some n => n | None => thr_notes base end;
     thr_hooks :=
       List.filter JsNumber.in_unit
         (List.filter JsNumber.isFinite
            (JsArray.uniq JsNumber.same (thr_hooks base ++ ti_hooks t)%list));
     thr_todos :=
       firstn MAX_TODOS_PER_THREAD (uniq (thr_todos base ++ ti_todos t)%list);
     thr_updatedAt := Some now;
     thr_createdAt :=
       match ti_createdAt t with Some c => c | None => thr_createdAt base end |}.

Definition upsert_thread_into (now : Z) (ts : list Thread) (name : string)
           (t : ThreadInput) : list Thread :=
  match JsArray.findIndex (has_name name) ts with
  | Some i =>
      let base := nth i ts (new_thread now name) in
      JsArray.set_at i (merge_thread now base t) ts
  | None => (ts ++ [merge_thread now (new_thread now name) t])%list
  end.

Definition upsertThread (now : Z) (projectId : string) (t : ThreadInput) : IO unit :=
  let! b := getBible now projectId in
  let name := JsString.trim (ti_name t) in
  if String.eqb name "" then ret tt
  else putBible now (set_threads b (upsert_thread_into now (threads b) name t) now).

Definition close_thread (now : Z) (t : Thread) : Thread :=
  {| thr_name := thr_name t; thr_status := closed; thr_notes := thr_notes t;
     thr_hooks := thr_hooks t; thr_todos := thr_todos t;
     thr_updatedAt := Some now; thr_createdAt := thr_createdAt t |}.

Definition closeThread (now : Z) (projectId name : string) : IO unit :=
  let! b := getBible now projectId in
  match JsArray.findIndex (has_name name) (threads b) with
  | Some i =>
      let t := nth i (threads b) (new_thread now name) in
      putBible now
        (set_threads b (JsArray.set_at i (close_thread now t) (threads b))
                     (updatedAt b))
  | None => ret tt
  end.

Definition removeEntity (now : Z) (projectId id : string) : IO unit :=
  let! b := getBible now projectId in
  if JsObj.has id (entities b)
  then putBible now (set_entities b (JsObj.delete id (entities b)) now)
  else ret tt.

Definition removeThread (now : Z) (projectId name : string) : IO unit :=
  let! b := getBible now projectId in
  match JsArray.findIndex (has_name name) (threads b) with
  | None => ret tt
  | Some i => putBible now (set_threads b (JsArray.remove_at i (threads b)) now)
  end.

(** *** Search *)

Module Json.

Definition hex_digit (n : nat) : ascii :=
  if (n <? 10)%nat then ascii_of_nat (48 + n) else ascii_of_nat (87 + n).

(** The escapes of [JSON.stringify] for one code unit below 128. *)
Definition escape (c : ascii) : string :=
  let n := nat_of_ascii c in
  if (n =? 34)%nat then String "\"%char (String (ascii_of_nat 34) "")
  else if (n =? 92)%nat then "\\"
  else if (n =? 8)%nat then "\b"
  else if (n =? 9)%nat then "\t"
  else if (n =? 10)%nat then "\n"
  else if (n =? 12)%nat then "\f"
  else if (n =? 13)%nat then "\r"
  else if (n <? 32)%nat then
    "\u00" ++ String (hex_digit (n / 16)) (String (hex_digit (n mod 16)) "")
  else String c "".

Fixpoint escape_all (s : string) : string :=
  match s with
  | EmptyString => EmptyString
  | String c s' => escape c ++ escape_all s'
  end.

Definition quote (s : string) : string :=
  String (ascii_of_nat 34) (escape_all s ++ String (ascii_of_nat 34) "").

Definition of_attr (v : AttrVal) : string :=
  match v with
  | AStr s => quote s
  | AArr items => "[" ++ JsString.join "," (map quote items) ++ "]"
  | ANull => "null"
  | AOther image => image
  end.

(** [JSON.stringify(attrs)] *)
Definition stringify (attrs : JsObj AttrVal) : string :=
  "{" ++ JsString.join "," (map (fun kv => quote (fst kv) ++ ":" ++ of_attr (snd kv)) attrs) ++ "}".

End Json.

Record SearchResult : Type := {
  sr_entities : list Entity;
  sr_threads : list Thread;
  sr_style : JsObj StyleVal
}.

Definition entity_matches (qq : string) (e : Entity) : bool :=
  if String.eqb qq "" then true
  else
    let blob :=
      JsString.toLowerCase
        (ent_id e ++ " " ++ type_name (ent_type e) ++ " " ++ Json.stringify (ent_attrs e)) in
    JsString.includes qq blob.

Definition thread_matches (qq : string) (t : Thread) : bool :=
  if String.eqb qq "" then true
  else
    let blob :=
      JsString.toLowerCase
        (thr_name t ++ " " ++ match thr_notes t with Some n => n | None => "" end
           ++ " " ++ JsString.join " " (thr_todos t)) in
    JsString.includes qq blob.

Definition searchBible (now : Z) (projectId q : string) : IO SearchResult :=
  let! b := getBible now projectId in
  let qq := JsString.trim (JsString.toLowerCase q) in
  ret {| sr_entities := List.filter (entity_matches qq) (JsObj.values (entities b));
         sr_threads := List.filter (thread_matches qq) (threads b);
         sr_style := style b |}.

(** *** Export, import, clear *)

Definition exportBible (now : Z) (projectId : string) : IO Bible :=
  getBible now projectId.

Definition import_entity (kv : string * EntityInput) : EntityInput :=
  let id := fst kv in
  let e := snd kv in
  {| ei_id := id;
     ei_type :=
       type_name (normalizeType (JsString.or_else (ei_type e) (JsString.before_colon id)));
     ei_attrs := ei_attrs e;
     ei_evidence := ei_evidence e |}.

Definition import_thread (t : ThreadInput) : ThreadInput :=
  {| ti_name := ti_name t;
     ti_status :=
       Some (match ti_status t with Some closed => closed | _ => open end);
     ti_notes := Some (match ti_notes t with Some n => n | None => None end);
     ti_hooks := ti_hooks t;
     ti_todos := ti_todos t;
     ti_createdAt := None |}.

Fixpoint upsertThreads (now : Z) (projectId : string) (ts : list ThreadInput) : IO unit :=
  match ts with
  | [] => ret tt
  | t :: rest =>
      let! _ := upsertThread now projectId (import_thread t) in
      upsertThreads now projectId rest
  end.

Definition importBible (now : Z) (projectId : string) (incoming : Incoming) : IO unit :=
  let! _ := getBible now projectId in
  let! _ :=
    match in_entities incoming with
    | Some ents => upsertEntities now projectId (map import_entity ents)
    | None => ret tt
    end in
  let! _ :=
    match in_threads incoming with
    | Some ts => upsertThreads now projectId ts
    | None => ret tt
    end in
  let! cur := getBible now projectId in
  putBible now
    (set_style cur
       (JsObj.spread2 (style cur)
          (match in_style incoming with Some st => st | None => [] end))).

Definition clearBible (projectId : string) : IO unit :=
  let! all := getAll in
  saveAll (base.delete projectId all).

(** *** Snapshot *)





(** [(a, z) => z.evidence.length - a.evidence.length] is not positive. *)
Definition more_evidence (a z : Entity) : bool :=
  (length (ent_evidence z) <=? length (ent_evidence a))%nat.





(* ================================================================== *)
(** ** Vocabulary of the properties *)

Arguments MAX_ENTITIES : simpl never.
Arguments MAX_EVIDENCE_PER_ENTITY : simpl never.
Arguments MAX_THREADS : simpl never.
Arguments MAX_TODOS_PER_THREAD : simpl never.

(** First occurrences under a key, skipping the keys in [seen]: what a
    [Set]-guarded loop keeps. *)
Fixpoint first_by {A : Type} (key : A -> string) (seen : list string)
         (items : list A) : list A :=
  match items with
  | [] => []
  | x :: rest =>
      if existsb (String.eqb (key x)) seen then first_by key seen rest
      else x :: first_by key (key x :: seen) rest
  end.

(** Own-property order: array-index keys in ascending order, then the
    other keys. *)
Definition key_before (k1 k2 : string) : Prop :=
  match JsObj.array_index k1, JsObj.array_index k2 with
  | Some a, Some b => (a < b)%N
  | Some _, None => True
  | None, Some _ => False
  | None, None => True
  end.

Definition canonical {V : Type} (o : JsObj V) : Prop :=
  List.NoDup (JsObj.keys o) /\ StronglySorted key_before (JsObj.keys o).

(** *** Store operations as data *)

Inductive Op : Type :=
| GetBible (projectId : string)
| PutBible (b : Bible)
| UpsertEntity (projectId : string) (e : EntityInput)
| AddEvidence (projectId id : string) (ev : Evidence)
| UpsertEntities (projectId : string) (es : list EntityInput)
| UpsertThread (projectId : string) (t : ThreadInput)
| CloseThread (projectId name : string)
| RemoveEntity (projectId id : string)
| RemoveThread (projectId name : string)
| ImportBible (projectId : string) (incoming : Incoming)
| ClearBible (projectId : string).

Definition run (now : Z) (op : Op) : IO unit :=
  match op with
  | GetBible p => let! _ := getBible now p in ret tt
  | PutBible b => putBible now b
  | UpsertEntity p e => upsertEntity now p e
  | AddEvidence p id ev => addEvidence now p id ev
  | UpsertEntities p es => upsertEntities now p es
  | UpsertThread p t => upsertThread now p t
  | CloseThread p name => closeThread now p name
  | RemoveEntity p id => removeEntity now p id
  | RemoveThread p name => removeThread now p name
  | ImportBible p incoming => importBible now p incoming
  | ClearBible p => clearBible p
  end.

(** The aggregate as [getBible] hands it to an operation. *)
Definition loaded (now : Z) (projectId : string) (s : Store) : Bible :=
  migrate now (s !! projectId) projectId.

(** The bucket after [getBible]: a missing aggregate has been created. *)
Definition touched (now : Z) (projectId : string) (s : Store) : Store :=
  match s !! projectId with
  | None => <[projectId := empty_bible now projectId]> s
  | Some _ => s
  end.

(** *** Quota and validity bounds *)

Definition hook_ok (n : JsNumber) : Prop :=
  exists q, n = Finite q /\ (0 <= q)%Q /\ (q <= 1)%Q.

Definition entity_ok (e : Entity) : Prop :=
  (length (ent_evidence e) <= MAX_EVIDENCE_PER_ENTITY)%nat /\
  List.NoDup (map evidence_key (ent_evidence e)).

Definition thread_ok (t : Thread) : Prop :=
  (length (thr_todos t) <= MAX_TODOS_PER_THREAD)%nat /\
  Forall hook_ok (thr_hooks t).

Definition bounds_ok (b : Bible) : Prop :=
  (length (entities b) <= MAX_ENTITIES)%nat /\
  (length (threads b) <= MAX_THREADS)%nat /\
  Forall (fun kv => entity_ok (snd kv)) (entities b) /\
  Forall thread_ok (threads b).



(** The entity part of [pruneBible]. *)
Definition prune_entities (ents : JsObj Entity) : JsObj Entity :=
  map clamp_evidence (clamp_entities ents).

(** The entities and threads kept for a project, none if it has no
    aggregate. *)
Definition stored_entities (p : string) (s : Store) : JsObj Entity :=
  match s !! p with Some b => entities b | None => [] end.

Definition stored_threads (p : string) (s : Store) : list Thread :=
  match s !! p with Some b => threads b | None => [] end.


(** What a write puts into the bucket. *)
Definition written (b' : Bible) : Prop :=
  (exists now b, b' = pruneBible (stamp now b)) \/
  (exists now p, b' = empty_bible now p).

(** [s'] holds nothing but what [s] held and what was written since. *)
Definition extends (s s' : Store) : Prop :=
  forall p b', s' !! p = Some b' -> s !! p = Some b' \/ written b'.


(** *** Sample data: the scenario of the specification *)

Definition for_her : Evidence :=
  {| ev_span := None; ev_quote := Some "I did it for her"; ev_chapterId := None |}.

Definition in_chapter_two : Evidence :=
  {| ev_span := Some (3, 17)%Z; ev_quote := Some "She owed her that much";
     ev_chapterId := Some "ch2" |}.

Definition mercy_guilt : EntityInput :=
  {| ei_id := "Mercy"; ei_type := "Character";
     ei_attrs := [("motivation", AStr "guilt")]; ei_evidence := [for_her] |}.


Definition paris_as_character : EntityInput :=
  {| ei_id := "Location:Paris"; ei_type := "Character";
     ei_attrs := []; ei_evidence := [] |}.

(** An aggregate that a later schema wrote. *)
Definition from_the_future : Bible :=
  {| projectId := "p1"; updatedAt := 0; schemaVersion := Some 2%Z;
     entities := []; threads := []; style := [] |}.

(** A project filled to the quota with entities [Concept:e0], ... *)
Definition filler_input (i : nat) : EntityInput :=
  {| ei_id := "e" ++ JsString.of_int (Z.of_nat i); ei_type := "Concept";
     ei_attrs := []; ei_evidence := [] |}.

Definition filler (i : nat) : string * Entity :=
  (canonical_id (filler_input i), merge_entity None (filler_input i)).

Definition full_bible : Bible :=
  {| projectId := "p1"; updatedAt := 0; schemaVersion := Some 1%Z;
     entities := map filler (seq 0 MAX_ENTITIES); threads := []; style := [] |}.

(** A decidable form of [NoDup] on strings, to evaluate on data. *)
Fixpoint distinct (l : list string) : bool :=
  match l with
  | [] => true
  | x :: rest => negb (existsb (String.eqb x) rest) && distinct rest
  end.

(** *** Invariants of the thread sequence *)






Definition arc : Thread :=
  {| thr_name := "arc"; thr_status := open; thr_notes := None;
     thr_hooks := []; thr_todos := ["resolve"; "resolve"];
     thr_updatedAt := None; thr_createdAt := None |}.


Definition padded_arc : ThreadInput :=
  {| ti_name := " arc "; ti_status := None; ti_notes := None;
     ti_hooks := []; ti_todos := []; ti_createdAt := None |}.

Definition arc_input : ThreadInput :=
  {| ti_name := "arc"; ti_status := None; ti_notes := None;
     ti_hooks := [Finite (1 # 2); NaN; Finite 2]; ti_todos := ["resolve"; "resolve"];
     ti_createdAt := None |}.

(** A project with two entities. *)
Definition two_entities : Store :=
  exec (upsertEntity 2 "p1" paris_as_character) (exec (upsertEntity 1 "p1" mercy_guilt) ∅).





(* ================================================================== *)
(** ** Vocabulary of the further properties *)


(** A delta value as the declared type has it: a string or an array of
    strings, or nothing. *)
Definition declared (v : AttrVal) : Prop :=
  match v with AOther _ => False | _ => True end.

(** An aggregate beyond every bound, as an older version of the store
    might have left it. *)
Definition overgrown_thread : Thread :=
  {| thr_name := "arc"; thr_status := open; thr_notes := None;
     thr_hooks := [Finite 2; NaN; Finite (1 # 4)];
     thr_todos := repeat "again" 50;
     thr_updatedAt := None; thr_createdAt := None |}.

Definition overgrown : Bible :=
  {| projectId := "elsewhere"; updatedAt := 0; schemaVersion := None;
     entities :=
       [("Character:Mercy",
         {| ent_id := "Character:Mercy"; ent_type := Character; ent_attrs := [];
            ent_evidence := repeat for_her 30 |})];
     threads := [overgrown_thread]; style := [] |}.

(** Sixty tags, fifty-five of them different. *)
Definition sixty_tags : list string :=
  map (fun i => JsString.of_int (Z.of_nat (i mod 55))) (seq 0 60).

Definition tagged : JsObj AttrVal := [("tags", AArr sixty_tags)].

Definition array_at (k : string) (o : JsObj AttrVal) : list string :=
  match JsObj.get k o with Some (AArr items) => items | _ => [] end.

(** No two entries of a list of numbers are the same number. *)
Definition different_numbers (hs : list JsNumber) : Prop :=
  StronglySorted (fun x y => JsNumber.same y x = false) hs.



(** [z.evidence.length <= a.evidence.length]: [a] may stand before [z]. *)
Definition no_less_evidence (a z : Entity) : Prop :=
  (length (ent_evidence z) <= length (ent_evidence a))%nat.

Definition has_evidence (n : nat) (e : Entity) : bool :=
  Nat.eqb (length (ent_evidence e)) n.

Definition mercy_entity : Entity := merge_entity None mercy_guilt.


Definition paris_entity : Entity := merge_entity None paris_as_character.

(** The input that names a stored entity by its id alone. *)
Definition by_id (id type_ : string) : EntityInput :=
  {| ei_id := id; ei_type := type_; ei_attrs := []; ei_evidence := [] |}.


(* ================================================================== *)
(** ** The service worker: OAuth, export and append

    The first part of [background.ts] talks to Chrome and to Google's
    APIs.  Each such call is a [Call] whose answer the environment
    chooses; the code between the calls is embedded as it is written.  A
    promise is a program that ends rejected ([inl]) or resolved ([inr]).
    Console output is left out. *)

(** A rejection value and what [String(e)] makes of it: an [Error] built
    by the worker, or anything else the environment rejects with. *)
Inductive JsErr : Type :=
| ErrorObj (message : string)
| Rejected (shown : string).

Definition String_of_err (e : JsErr) : string :=
  match e with
  | ErrorObj m => if String.eqb m "" then "Error" else ("Error: " ++ m)%string
  | Rejected s => s
  end.

Record DocsParagraphElement : Type := { textRun_content : option string }.
Record DocsStructural : Type := {
  paragraph_elements : option (list DocsParagraphElement)
}.
Record DocsResponse : Type := { body_content : option (list DocsStructural) }.

(** A [fetch] response with what reading its body gives. *)
Record HttpResponse : Type := {
  r_ok : bool;
  r_status : Z;
  r_statusText : string;
  r_text : JsErr + string;
  r_json : JsErr + DocsResponse
}.

(** What [chrome.identity.getAuthToken] hands to its callback. *)
Record TokenResult : Type := {
  lastError : option JsErr;
  token : option string
}.

Record Tab : Type := { tab_id : option Z }.

Inductive Origin : Type := drive_export | docs_api.

Inductive Response : Type :=
| Ok
| OkText (origin : Origin) (text : string)
| Failed (error : string).

Inductive Call : Type :=
| IdentityGetAuthToken (interactive : bool)
| IdentityRemoveCachedAuthToken (token : string)
| FetchDriveExport (fileId : option string) (token : string)
| FetchDocument (fileId : option string) (token : string)
| FetchBatchUpdate (fileId token text : string)
| TabsQuery
| TabsSendMessage (tabId : Z)
| SendResponse (r : Response).

Definition answer (c : Call) : Type :=
  match c with
  | IdentityGetAuthToken _ => TokenResult
  | IdentityRemoveCachedAuthToken _ => unit
  | FetchDriveExport _ _ => (JsErr + HttpResponse)%type
  | FetchDocument _ _ => (JsErr + HttpResponse)%type
  | FetchBatchUpdate _ _ _ => (JsErr + HttpResponse)%type
  | TabsQuery => (JsErr + list Tab)%type
  | TabsSendMessage _ => unit
  | SendResponse _ => unit
  end.

Inductive Prog (A : Type) : Type :=
| Ret (a : A)
| Do (c : Call) (k : answer c -> Prog A).

Arguments Ret {A} a.
Arguments Do {A} c k.

Fixpoint andThen {A B : Type} (p : Prog A) (f : A -> Prog B) : Prog B :=
  match p with
  | Ret a => f a
  | Do c k => Do c (fun x => andThen (k x) f)
  end.

Definition Async (A : Type) : Type := Prog (JsErr + A).

Definition resolve {A : Type} (a : A) : Async A := Ret (inr a).
Definition reject {A : Type} (e : JsErr) : Async A := Ret (inl e).

(** [const a = await p; ...] inside an [async] function. *)
Definition await {A B : Type} (p : Async A) (k : A -> Async B) : Async B :=
  andThen p (fun r => match r with inl e => reject e | inr a => k a end).

(** [try { ... } catch (e) { ... }] and [p.catch(h)]. *)
Definition catch {A : Type} (p : Async A) (h : JsErr -> Async A) : Async A :=
  andThen p (fun r => match r with inl e => h e | inr a => resolve a end).

Definition sendResponse (r : Response) : Async unit :=
  Do (SendResponse r) (fun _ => resolve tt).

(** *** OAuth helpers *)

Definition getAuthToken (interactive : bool) : Async string :=
  Do (IdentityGetAuthToken interactive) (fun r =>
    match lastError r, token r with
    | Some e, _ => reject e
    | None, Some t =>
        if String.eqb t "" then reject (ErrorObj "No OAuth token") else resolve t
    | None, None => reject (ErrorObj "No OAuth token")
    end).

Definition removeToken (token : string) : Async unit :=
  Do (IdentityRemoveCachedAuthToken token) (fun _ => resolve tt).

(** *** Fetch helpers *)

(** [await r.text().catch(() => d)] *)
Definition text_or (r : HttpResponse) (d : string) : string :=
  match r_text r with inl _ => d | inr body => body end.

Definition driveExportText (fileId : option string) (token : string) : Async string :=
  Do (FetchDriveExport fileId token) (fun fetched =>
    match fetched with
    | inl e => reject e
    | inr r =>
        if r_ok r then Ret (r_text r)
        else
          reject
            (ErrorObj
               ("drive export " ++ JsString.of_int (r_status r) ++ ": "
                  ++ JsString.or_else (text_or r "") (r_statusText r))%string)
    end).

(** The text of one structural element: its text runs, concatenated. *)
Definition paragraph_line (block : DocsStructural) : string :=
  fold_left
    (fun line el =>
       (line ++ match textRun_content el with Some c => c | None => "" end)%string)
    (match paragraph_elements block with Some els => els | None => [] end)
    "".

Definition newline : string := String (ascii_of_nat 10) "".

Definition flatten (j : DocsResponse) : string :=
  JsString.join newline
    (List.filter (fun line => negb (String.eqb (JsString.trim line) ""))
       (map paragraph_line
            (match body_content j with Some c => c | None => [] end))).

Definition docsGetFlatten (fileId : option string) (token : string) : Async string :=
  Do (FetchDocument fileId token) (fun fetched =>
    match fetched with
    | inl e => reject e
    | inr r =>
        if r_ok r then
          match r_json r with
          | inl e => reject e
          | inr j => resolve (flatten j)
          end
        else
          reject
            (ErrorObj
               ("docs api " ++ JsString.of_int (r_status r) ++ ": "
                  ++ JsString.or_else (text_or r "") (r_statusText r))%string)
    end).

Definition docsAppendText (fileId token text : string) : Async unit :=
  Do (FetchBatchUpdate fileId token text) (fun fetched =>
    match fetched with
    | inl e => reject e
    | inr r =>
        if r_ok r then resolve tt
        else
          reject
            (ErrorObj
               ("batchUpdate " ++ JsString.of_int (r_status r) ++ ": "
                  ++ text_or r (r_statusText r))%string)
    end).

(** *** Panel toggle relay *)

Definition forwardPanelToggle : Async unit :=
  Do TabsQuery (fun queried =>
    match queried with
    | inl e => reject e
    | inr tabs =>
        match tabs with
        | [] => resolve tt
        | tab :: _ =>
            match tab_id tab with
            | None => resolve tt
            | Some id =>
                if Z.eqb id 0 then resolve tt
                else Do (TabsSendMessage id) (fun _ => resolve tt)
            end
        end
    end).

(** *** Router *)

Definition EXPORT_REQUEST : string := "STORYLENS_EXPORT_REQUEST".
Definition CONNECT_REQUEST : string := "STORYLENS_CONNECT_REQUEST".
Definition TOGGLE_REQUEST : string := "STORYLENS_TOGGLE_REQUEST".
Definition PING : string := "SL_PING".
Definition INSERT_TEXT_REQUEST : string := "STORYLENS_INSERT_TEXT_REQUEST".

(** A message, as far as the router reads it: [type], [fileId] and
    [text], each a string or absent. *)
Record Message : Type := {
  msg_type : option string;
  msg_fileId : option string;
  msg_text : option string
}.

(** [try { ... } catch (e) { sendResponse({ ok: false, error: String(e) }) }] *)
Definition or_fail (body : Async unit) : Prog unit :=
  andThen body (fun r =>
    match r with
    | inl e => Do (SendResponse (Failed (String_of_err e))) (fun _ => Ret tt)
    | inr _ => Ret tt
    end).

Definition connect_request : Prog unit :=
  or_fail (await (getAuthToken true) (fun _ => sendResponse Ok)).

Definition export_request (fileId : option string) : Prog unit :=
  or_fail
    (await (catch (getAuthToken false) (fun _ => getAuthToken true)) (fun token =>
     catch
       (await (driveExportText fileId token) (fun text =>
        sendResponse (OkText drive_export text)))
       (fun _ =>
          catch
            (await (docsGetFlatten fileId token) (fun text =>
             sendResponse (OkText docs_api text)))
            (fun _ =>
               await (removeToken token) (fun _ =>
               await (getAuthToken true) (fun token' =>
               catch
                 (await (driveExportText fileId token') (fun text =>
                  sendResponse (OkText drive_export text)))
                 (fun _ =>
                    await (docsGetFlatten fileId token') (fun text =>
                    sendResponse (OkText docs_api text))))))))).

Definition insert_text_request (message : Message) : Prog unit :=
  or_fail
    (let text := match msg_text message with Some t => t | None => "" end in
     match msg_fileId message with
     | None => reject (ErrorObj "missing fileId/text")
     | Some fileId =>
         if String.eqb fileId "" || String.eqb text ""
         then reject (ErrorObj "missing fileId/text")
         else
           await (catch (getAuthToken false) (fun _ => getAuthToken true)) (fun token =>
           await (docsAppendText fileId token text) (fun _ =>
           sendResponse Ok))
     end).

Definition toggle_request : Prog unit :=
  or_fail (await forwardPanelToggle (fun _ => sendResponse Ok)).

(** The listener; its value is what it returns to Chrome, [true] or
    nothing. *)
Definition onMessage (message : Message) : Prog bool :=
  match msg_type message with
  | None => Ret false
  | Some type_ =>
      if String.eqb type_ "" then Ret false
      else if String.eqb type_ PING then Do (SendResponse Ok) (fun _ => Ret true)
      else if String.eqb type_ CONNECT_REQUEST then
        andThen connect_request (fun _ => Ret true)
      else if String.eqb type_ EXPORT_REQUEST then
        andThen (export_request (msg_fileId message)) (fun _ => Ret true)
      else if String.eqb type_ INSERT_TEXT_REQUEST then
        andThen (insert_text_request message) (fun _ => Ret true)
      else if String.eqb type_ TOGGLE_REQUEST then
        andThen toggle_request (fun _ => Ret true)
      else Ret false
  end.

(** *** Running the worker against an environment *)

(** One call with the answer it got. *)
Definition Event : Type := sigT answer.

Definition event (c : Call) (x : answer c) : Event := @existT Call answer c x.

(** The environment answers the [n]-th call of a run. *)
Definition Env : Type := nat -> forall c : Call, answer c.

Fixpoint play_from {A : Type} (env : Env) (n : nat) (p : Prog A) : list Event * A :=
  match p with
  | Ret a => ([], a)
  | Do c k =>
      let x := env n c in
      let r := play_from env (S n) (k x) in
      (event c x :: fst r, snd r)
  end.

Definition play {A : Type} (env : Env) (p : Prog A) : list Event * A :=
  play_from env 0 p.

(** [P] holds of the calls made and the value returned, whatever the
    environment answers. *)
Fixpoint always {A : Type} (p : Prog A) (P : list Event -> A -> Prop) : Prop :=
  match p with
  | Ret a => P [] a
  | Do c k => forall x : answer c, always (k x) (fun tr a => P (event c x :: tr) a)
  end.

Definition call_of (e : Event) : Call := projT1 e.

Definition is_response (c : Call) : bool :=
  match c with SendResponse _ => true | _ => false end.

Definition is_fetch (c : Call) : bool :=
  match c with
  | FetchDriveExport _ _ | FetchDocument _ _ | FetchBatchUpdate _ _ _ => true
  | _ => false
  end.

Definition is_token_request (c : Call) : bool :=
  match c with IdentityGetAuthToken _ => true | _ => false end.

Definition is_interactive (c : Call) : bool :=
  match c with IdentityGetAuthToken true => true | _ => false end.

Definition is_token_removal (c : Call) : bool :=
  match c with IdentityRemoveCachedAuthToken _ => true | _ => false end.

Definition count (f : Call -> bool) (tr : list Event) : nat :=
  length (List.filter f (map call_of tr)).

Definition handled (message : Message) : bool :=
  match msg_type message with
  | None => false
  | Some t =>
      String.eqb t PING || String.eqb t CONNECT_REQUEST || String.eqb t EXPORT_REQUEST
      || String.eqb t INSERT_TEXT_REQUEST || String.eqb t TOGGLE_REQUEST
  end.

(** The last call is the response. *)
Definition ends_with_response (tr : list Event) : bool :=
  is_response (List.last (map call_of tr) TabsQuery).

(** What was sent as the response, if the last call is one. *)
Definition response_of (tr : list Event) : option Response :=
  match List.last (map call_of tr) TabsQuery with
  | SendResponse r => Some r
  | _ => None
  end.

(** The text that a fetch of the document gave, by either way. *)
Definition fetched_text (e : Event) : option (Origin * string) :=
  match e with
  | existT c x =>
      match c return answer c -> option (Origin * string) with
      | FetchDriveExport _ _ => fun x =>
          match x with
          | inr r =>
              if r_ok r
              then match r_text r with inr t => Some (drive_export, t) | inl _ => None end
              else None
          | inl _ => None
          end
      | FetchDocument _ _ => fun x =>
          match x with
          | inr r =>
              if r_ok r
              then match r_json r with
                   | inr j => Some (docs_api, flatten j)
                   | inl _ => None
                   end
              else None
          | inl _ => None
          end
      | _ => fun _ => None
      end x
  end.

Definition is_Some_b {A : Type} (x : option A) : bool :=
  match x with Some _ => true | None => false end.

(** The event before the last one. *)
Definition before_last (tr : list Event) : option Event :=
  List.last (map Some (List.removelast tr)) None.

(** The document that a fetch asks for. *)
Definition fetches_only (fileId : option string) (c : Call) : bool :=
  match c with
  | FetchDriveExport f _ | FetchDocument f _ =>
      match f, fileId with
      | Some a, Some b => String.eqb a b
      | None, None => true
      | _, _ => false
      end
  | FetchBatchUpdate _ _ _ => false
  | _ => true
  end.

Definition truthy (s : option string) : bool :=
  match s with Some s => negb (String.eqb s "") | None => false end.

Definition appends (fileId text : string) (c : Call) : bool :=
  match c with
  | FetchBatchUpdate f _ t => String.eqb f fileId && String.eqb t text
  | FetchDriveExport _ _ | FetchDocument _ _ => false
  | _ => true
  end.

(** The event is a [batchUpdate] that the server accepted. *)
Definition appended (e : Event) : bool :=
  match e with
  | existT c x =>
      match c return answer c -> bool with
      | FetchBatchUpdate _ _ _ => fun x =>
          match x with inr r => r_ok r | inl _ => false end
      | _ => fun _ => false
      end x
  end.

(** An environment in which every request for a token is refused, every
    fetch answers 403 and no tab is open. *)
Definition forbidden : HttpResponse :=
  {| r_ok := false; r_status := 403; r_statusText := "Forbidden";
     r_text := inr ""; r_json := inl (Rejected "SyntaxError") |}.

Definition refusing : Env :=
  fun _ c =>
    match c return answer c with
    | IdentityGetAuthToken _ =>
        {| lastError := Some (Rejected "[object Object]"); token := None |}
    | IdentityRemoveCachedAuthToken _ => tt
    | FetchDriveExport _ _ => inr forbidden
    | FetchDocument _ _ => inr forbidden
    | FetchBatchUpdate _ _ _ => inr forbidden
    | TabsQuery => inr []
    | TabsSendMessage _ => tt
    | SendResponse _ => tt
    end.

Definition insert_without_text : Message :=
  {| msg_type := Some INSERT_TEXT_REQUEST; msg_fileId := Some "doc1"; msg_text := None |}.

Definition insert_hello : Message :=
  {| msg_type := Some INSERT_TEXT_REQUEST; msg_fileId := Some "doc1";
     msg_text := Some "hello" |}.

(* ================================================================== *)
(** * Properties *)

Local Open Scope list_scope.


(** ** Objects: reading after writing *)

Section ObjFacts.
Context {V : Type}.
Implicit Types (o : JsObj V) (k : string) (v : V).

Lemma obj_get_none_keys k o : JsObj.get k o = None <-> ~ In k (JsObj.keys o).
Proof.
  induction o as [|[k' v'] o IH]; simpl.
  - tauto.
  - destruct (String.eqb_spec k k') as [->|Hne].
    + split; [discriminate | intros H; exfalso; apply H; now left].
    + rewrite IH. split.
      * intros H [E|E]; [congruence | tauto].
      * tauto.
Qed.

Lemma obj_has_false k o : JsObj.has k o = false <-> JsObj.get k o = None.
Proof. unfold JsObj.has. destruct (JsObj.get k o); split; congruence. Qed.


Lemma obj_get_replace_same k v o :
  JsObj.get k o <> None -> JsObj.get k (JsObj.replace k v o) = Some v.
Proof.
  induction o as [|[k' v'] o IH]; simpl; [congruence|].
  destruct (String.eqb_spec k k') as [->|Hne]; simpl.
  - now rewrite String.eqb_refl.
  - destruct (String.eqb_spec k k'); [congruence | auto].
Qed.

Lemma obj_get_replace_other k k' v o :
  k' <> k -> JsObj.get k' (JsObj.replace k v o) = JsObj.get k' o.
Proof.
  intros Hne. induction o as [|[k0 v0] o IH]; simpl; [reflexivity|].
  destruct (String.eqb_spec k k0) as [->|Hk]; simpl.
  - destruct (String.eqb_spec k' k0); [congruence | reflexivity].
  - now rewrite IH.
Qed.



Lemma obj_replace_keys k v o : JsObj.keys (JsObj.replace k v o) = JsObj.keys o.
Proof.
  induction o as [|[k' v'] o IH]; simpl; [reflexivity|].
  destruct (String.eqb k k'); simpl; [reflexivity | now f_equal].
Qed.

Lemma obj_get_insert_same n k v o :
  JsObj.get k o = None -> JsObj.get k (JsObj.insert_index n k v o) = Some v.
Proof.
  induction o as [|[k' v'] o IH]; simpl.
  - now rewrite String.eqb_refl.
  - destruct (String.eqb_spec k k') as [->|Hne]; [discriminate|].
    intros H. destruct (JsObj.array_index k') as [m|]; simpl.
    + destruct (m <? n)%N; simpl.
      * destruct (String.eqb_spec k k'); [congruence | auto].
      * now rewrite String.eqb_refl.
    + now rewrite String.eqb_refl.
Qed.

Lemma obj_get_insert_other n k k' v o :
  k' <> k -> JsObj.get k' (JsObj.insert_index n k v o) = JsObj.get k' o.
Proof.
  intros Hne. induction o as [|[k0 v0] o IH]; simpl.
  - destruct (String.eqb_spec k' k); [congruence | reflexivity].
  - destruct (JsObj.array_index k0) as [m|]; simpl.
    + destruct (m <? n)%N; simpl.
      * now rewrite IH.
      * destruct (String.eqb_spec k' k); [congruence | reflexivity].
    + destruct (String.eqb_spec k' k); [congruence | reflexivity].
Qed.


Lemma obj_get_app k o1 o2 :
  JsObj.get k (o1 ++ o2) =
  match JsObj.get k o1 with Some v => Some v | None => JsObj.get k o2 end.
Proof.
  induction o1 as [|[k' v'] o1 IH]; simpl; [reflexivity|].
  destruct (String.eqb k k'); auto.
Qed.

Lemma obj_get_set_same k v o : JsObj.get k (JsObj.set k v o) = Some v.
Proof.
  unfold JsObj.set, JsObj.has.
  destruct (JsObj.get k o) as [v0|] eqn:E.
  - apply obj_get_replace_same. congruence.
  - destruct (JsObj.array_index k).
    + now apply obj_get_insert_same.
    + rewrite obj_get_app, E. simpl. now rewrite String.eqb_refl.
Qed.

Lemma obj_get_set_other k k' v o :
  k' <> k -> JsObj.get k' (JsObj.set k v o) = JsObj.get k' o.
Proof.
  intros Hne. unfold JsObj.set.
  destruct (JsObj.has k o).
  - now apply obj_get_replace_other.
  - destruct (JsObj.array_index k).
    + now apply obj_get_insert_other.
    + rewrite obj_get_app. destruct (JsObj.get k' o); [reflexivity|].
      simpl. destruct (String.eqb_spec k' k); [congruence | reflexivity].
Qed.



Lemma obj_set_new k v o :
  JsObj.array_index k = None -> JsObj.get k o = None ->
  JsObj.set k v o = o ++ [(k, v)].
Proof.
  intros Hi Hg. unfold JsObj.set, JsObj.has. now rewrite Hg, Hi.
Qed.

Lemma obj_get_firstn_some n k v o :
  JsObj.get k (firstn n o) = Some v -> JsObj.get k o = Some v.
Proof.
  revert n. induction o as [|[k' v'] o IH]; intros [|n]; simpl; try discriminate.
  destruct (String.eqb k k'); eauto.
Qed.


End ObjFacts.

(** ** First occurrences *)

Section FirstBy.
Context {A : Type} (key : A -> string).
Implicit Types (seen : list string) (l : list A).

Lemma existsb_eqb_In (k : string) seen :
  existsb (String.eqb k) seen = true <-> In k seen.
Proof.
  rewrite existsb_exists. split.
  - intros (x & Hx & E). apply String.eqb_eq in E. now subst.
  - intros H. exists k. split; [assumption | apply String.eqb_refl].
Qed.

Lemma existsb_eqb_ext (k : string) seen seen' :
  (forall x, In x seen <-> In x seen') ->
  existsb (String.eqb k) seen = existsb (String.eqb k) seen'.
Proof.
  intros H. apply Bool.eq_true_iff_eq. now rewrite !existsb_eqb_In.
Qed.

Lemma first_by_ext seen seen' l :
  (forall x, In x seen <-> In x seen') ->
  first_by key seen l = first_by key seen' l.
Proof.
  revert seen seen'. induction l as [|x l IH]; intros seen seen' H; simpl.
  - reflexivity.
  - rewrite (existsb_eqb_ext _ seen seen' H).
    destruct (existsb _ seen'); [now apply IH|].
    f_equal. apply IH. intros y. simpl. rewrite H. tauto.
Qed.

Lemma first_by_keys seen l k :
  In k (map key (first_by key seen l)) <-> In k (map key l) /\ ~ In k seen.
Proof.
  revert seen. induction l as [|x l IH]; intros seen; simpl.
  - tauto.
  - destruct (existsb _ seen) eqn:E.
    + apply existsb_eqb_In in E. rewrite IH. split.
      * tauto.
      * intros [[Hk|H] Hn]; [rewrite Hk in E|]; tauto.
    + assert (~ In (key x) seen) as Hx.
      { rewrite <- existsb_eqb_In. congruence. }
      simpl. rewrite IH. simpl. split.
      * intros [Hk|[H Hn]]; [rewrite <- Hk; tauto|].
        split; [tauto|]. intros H'. apply Hn. now right.
      * intros [[Hk|H] Hn]; [now left|].
        destruct (String.eqb_spec (key x) k) as [Hk|Hne]; [now left|].
        right. split; [assumption|]. intros [?|?]; tauto.
Qed.

Lemma first_by_NoDup seen l : List.NoDup (map key (first_by key seen l)).
Proof.
  revert seen. induction l as [|x l IH]; intros seen; simpl.
  - constructor.
  - destruct (existsb _ seen); [apply IH|].
    simpl. constructor; [|apply IH].
    rewrite first_by_keys. simpl. tauto.
Qed.

Lemma first_by_all_seen seen l :
  (forall x, In x l -> In (key x) seen) -> first_by key seen l = [].
Proof.
  induction l as [|x l IH]; intros H; simpl; [reflexivity|].
  assert (existsb (String.eqb (key x)) seen = true) as ->.
  { apply existsb_eqb_In, H. now left. }
  apply IH. intros y Hy. apply H. now right.
Qed.

Lemma first_by_fresh seen l :
  List.NoDup (map key l) -> (forall x, In x l -> ~ In (key x) seen) ->
  first_by key seen l = l.
Proof.
  revert seen. induction l as [|x l IH]; intros seen Hnd H; simpl; [reflexivity|].
  inversion Hnd as [|? ? Hx Hnd']; subst.
  destruct (existsb _ seen) eqn:E.
  - apply existsb_eqb_In in E. exfalso. apply (H x); [now left | assumption].
  - f_equal. apply IH; [assumption|].
    intros y Hy [Hk|Hk].
    + apply Hx. rewrite Hk. now apply in_map.
    + apply (H y); [now right | assumption].
Qed.

Lemma first_by_app seen l1 l2 :
  first_by key seen (l1 ++ l2) =
  first_by key seen l1 ++ first_by key (map key (first_by key seen l1) ++ seen) l2.
Proof.
  revert seen. induction l1 as [|x l1 IH]; intros seen; simpl.
  - reflexivity.
  - destruct (existsb _ seen); [apply IH|].
    simpl. f_equal. rewrite IH. f_equal.
    apply first_by_ext. intros y. simpl. rewrite !in_app_iff. simpl. tauto.
Qed.

(** Deduplicating a capped, deduplicated list extended by items whose
    keys it was built from changes nothing. *)
Lemma first_by_capped_again (n : nat) l extra :
  (forall x, In x extra -> In (key x) (map key l)) ->
  firstn n (first_by key [] (firstn n (first_by key [] l) ++ extra)) =
  firstn n (first_by key [] l).
Proof.
  intros Hsub. set (u := first_by key [] l).
  assert (List.NoDup (map key (firstn n u))) as Hnd.
  { pose proof (first_by_NoDup [] l) as H. fold u in H.
    rewrite <- (firstn_skipn n u), map_app in H.
    now apply NoDup_app_remove_r in H. }
  rewrite first_by_app.
  rewrite (first_by_fresh [] (firstn n u)) by (auto; intros ? ? []).
  destruct (Nat.le_gt_cases (length u) n) as [Hle|Hgt].
  - rewrite (firstn_all2 u) by assumption.
    rewrite first_by_all_seen; [rewrite app_nil_r; now apply firstn_all2|].
    intros x Hx. rewrite in_app_iff. left.
    apply (first_by_keys [] l). split; [now apply Hsub | tauto].
  - rewrite firstn_app, firstn_firstn, Nat.min_id.
    rewrite length_firstn, Nat.min_l by lia.
    rewrite Nat.sub_diag. simpl. now rewrite app_nil_r.
Qed.

Lemma first_by_capped_idem (n : nat) l :
  firstn n (first_by key [] (firstn n (first_by key [] l))) =
  firstn n (first_by key [] l).
Proof.
  rewrite <- (app_nil_r (firstn n (first_by key [] l))) at 1.
  apply first_by_capped_again. intros ? [].
Qed.

End FirstBy.

Lemma uniq_from_first_by (seen arr : list string) :
  JsArray.uniq_from String.eqb seen arr = first_by (fun s => s) seen arr.
Proof.
  revert seen. induction arr as [|x arr IH]; intros seen; simpl; [reflexivity|].
  destruct (existsb _ seen); now rewrite IH.
Qed.

Lemma uniq_first_by (arr : list string) : uniq arr = first_by (fun s => s) [] arr.
Proof. apply uniq_from_first_by. Qed.

Lemma uniq_NoDup (arr : list string) : List.NoDup (uniq arr).
Proof.
  rewrite uniq_first_by.
  pose proof (first_by_NoDup (fun s : string => s) [] arr) as H.
  now rewrite map_id in H.
Qed.

(** ** [dedupeEvidence] *)

Lemma dedupe_loop_spec (items : list Evidence) :
  forall seen out,
    (length out < MAX_EVIDENCE_PER_ENTITY)%nat ->
    dedupe_loop seen out items =
    firstn MAX_EVIDENCE_PER_ENTITY (out ++ first_by evidence_key seen items).
Proof.
  induction items as [|e rest IH]; intros seen out Hlen;
    cbn [dedupe_loop first_by].
  - rewrite app_nil_r, firstn_all2; [reflexivity | lia].
  - destruct (existsb _ seen); [now apply IH|].
    destruct (Nat.leb_spec MAX_EVIDENCE_PER_ENTITY (length (out ++ [e]))) as [Hge|Hlt].
    + rewrite length_app in Hge. simpl in Hge.
      replace (out ++ e :: first_by evidence_key (evidence_key e :: seen) rest)
        with ((out ++ [e]) ++ first_by evidence_key (evidence_key e :: seen) rest)
        by now rewrite <- app_assoc.
      rewrite firstn_app.
      assert (length (out ++ [e]) = MAX_EVIDENCE_PER_ENTITY) as Hlen'
        by (rewrite length_app; simpl; lia).
      rewrite Hlen', Nat.sub_diag, firstn_all2 by lia.
      simpl. now rewrite app_nil_r.
    + rewrite IH by assumption. now rewrite <- app_assoc.
Qed.

Lemma dedupeEvidence_spec (items : list Evidence) :
  dedupeEvidence items =
  firstn MAX_EVIDENCE_PER_ENTITY (first_by evidence_key [] items).
Proof.
  unfold dedupeEvidence. rewrite dedupe_loop_spec; [reflexivity|].
  unfold MAX_EVIDENCE_PER_ENTITY. simpl. lia.
Qed.

Lemma dedupeEvidence_length (items : list Evidence) :
  (length (dedupeEvidence items) <= MAX_EVIDENCE_PER_ENTITY)%nat.
Proof. rewrite dedupeEvidence_spec, length_firstn. lia. Qed.

Lemma dedupeEvidence_NoDup (items : list Evidence) :
  List.NoDup (map evidence_key (dedupeEvidence items)).
Proof.
  rewrite dedupeEvidence_spec.
  pose proof (first_by_NoDup evidence_key [] items) as H.
  rewrite <- (firstn_skipn MAX_EVIDENCE_PER_ENTITY (first_by _ _ _)), map_app in H.
  now apply NoDup_app_remove_r in H.
Qed.

Lemma dedupeEvidence_idem (items : list Evidence) :
  dedupeEvidence (dedupeEvidence items) = dedupeEvidence items.
Proof. rewrite !dedupeEvidence_spec. apply first_by_capped_idem. Qed.


(** ** [mergeAttrs] *)



Lemma merge_entry_get_other (out : JsObj AttrVal) (kv : string * AttrVal) (k : string) :
  k <> fst kv -> JsObj.get k (merge_entry out kv) = JsObj.get k out.
Proof.
  intros Hne. unfold merge_entry.
  destruct (merge_slot _ _); [now apply obj_get_set_other | reflexivity].
Qed.

Lemma mergeAttrs_get_other (b a : JsObj AttrVal) (k : string) :
  ~ In k (JsObj.keys b) -> JsObj.get k (mergeAttrs a b) = JsObj.get k a.
Proof.
  unfold mergeAttrs. revert a.
  induction b as [|kv b IH]; intros a Hk; simpl; [reflexivity|].
  rewrite IH by (intros H; apply Hk; now right).
  apply merge_entry_get_other. intros ->. apply Hk. now left.
Qed.



(** ** [pruneBible] *)

Lemma filter_idem {A : Type} (f : A -> bool) (l : list A) :
  List.filter f (List.filter f l) = List.filter f l.
Proof.
  induction l as [|x l IH]; simpl; [reflexivity|].
  destruct (f x) eqn:E; simpl; [rewrite E; now f_equal | assumption].
Qed.

Lemma slice_last_length {A : Type} (n : nat) (l : list A) :
  length (JsArray.slice_last n l) = Nat.min n (length l).
Proof. unfold JsArray.slice_last. rewrite length_skipn. lia. Qed.

Lemma clamp_entities_length (l : JsObj Entity) :
  (length (clamp_entities l) <= MAX_ENTITIES)%nat.
Proof.
  unfold clamp_entities.
  destruct (Nat.ltb_spec MAX_ENTITIES (length l)); [rewrite length_firstn|]; lia.
Qed.

Lemma clamp_entities_small (l : JsObj Entity) :
  (length l <= MAX_ENTITIES)%nat -> clamp_entities l = l.
Proof.
  intros H. unfold clamp_entities.
  destruct (Nat.ltb_spec MAX_ENTITIES (length l)); [lia | reflexivity].
Qed.

Lemma clamp_threads_length (l : list Thread) :
  (length (clamp_threads l) <= MAX_THREADS)%nat.
Proof.
  unfold clamp_threads.
  destruct (Nat.ltb_spec MAX_THREADS (length l)); [rewrite slice_last_length|]; lia.
Qed.

Lemma clamp_threads_small (l : list Thread) :
  (length l <= MAX_THREADS)%nat -> clamp_threads l = l.
Proof.
  intros H. unfold clamp_threads.
  destruct (Nat.ltb_spec MAX_THREADS (length l)); [lia | reflexivity].
Qed.

Lemma clamp_evidence_idem (kv : string * Entity) :
  clamp_evidence (clamp_evidence kv) = clamp_evidence kv.
Proof.
  unfold clamp_evidence, dedupe_entity, with_evidence. simpl. now rewrite dedupeEvidence_idem.
Qed.

Lemma prune_thread_idem (t : Thread) : prune_thread (prune_thread t) = prune_thread t.
Proof.
  unfold prune_thread. simpl.
  now rewrite filter_idem, firstn_firstn, Nat.min_id.
Qed.

Lemma pruneBible_idem (b : Bible) : pruneBible (pruneBible b) = pruneBible b.
Proof.
  unfold pruneBible. simpl.
  rewrite (clamp_entities_small (map _ _))
    by (rewrite length_map; apply clamp_entities_length).
  rewrite (clamp_threads_small (map _ _))
    by (rewrite length_map; apply clamp_threads_length).
  rewrite !map_map.
  f_equal; apply map_ext; intros; [apply clamp_evidence_idem | apply prune_thread_idem].
Qed.

Lemma keep_hook_ok (n : JsNumber) : keep_hook n = true -> hook_ok n.
Proof.
  unfold keep_hook, hook_ok. destruct n as [|neg|q]; simpl; try discriminate.
  intros H. apply Bool.andb_true_iff in H as [H0 H1].
  exists q. rewrite <- !Qle_bool_iff. auto.
Qed.

Lemma prune_thread_ok (t : Thread) : thread_ok (prune_thread t).
Proof.
  unfold thread_ok, prune_thread. simpl. split.
  - rewrite length_firstn. lia.
  - apply List.Forall_forall. intros h Hh. apply filter_In in Hh as [_ Hh].
    now apply keep_hook_ok.
Qed.

Lemma clamp_evidence_ok (kv : string * Entity) : entity_ok (snd (clamp_evidence kv)).
Proof.
  unfold entity_ok, clamp_evidence, dedupe_entity. simpl. split.
  - apply dedupeEvidence_length.
  - apply dedupeEvidence_NoDup.
Qed.

Lemma pruneBible_bounds (b : Bible) : bounds_ok (pruneBible b).
Proof.
  unfold bounds_ok, pruneBible. simpl. repeat split.
  - rewrite length_map. apply clamp_entities_length.
  - rewrite length_map. apply clamp_threads_length.
  - apply List.Forall_map, List.Forall_forall. intros kv _. apply clamp_evidence_ok.
  - apply List.Forall_map, List.Forall_forall. intros t _. apply prune_thread_ok.
Qed.

Lemma empty_bible_bounds (now : Z) (p : string) : bounds_ok (empty_bible now p).
Proof.
  unfold bounds_ok, empty_bible, MAX_ENTITIES, MAX_THREADS. simpl.
  repeat split; try lia; constructor.
Qed.

(** [migrate] returns an aggregate under the project id it was asked
    for, already pruned. *)
Lemma migrate_projectId (now : Z) (ob : option Bible) (p : string) :
  projectId (migrate now ob p) = p.
Proof. destruct ob; reflexivity. Qed.


Lemma migrate_bounds (now : Z) (ob : option Bible) (p : string) :
  bounds_ok (migrate now ob p).
Proof. destruct ob; [apply pruneBible_bounds | apply empty_bible_bounds]. Qed.


(** ** Running the public API *)

Lemma bind_run {A B : Type} (m : IO A) (k : A -> IO B) (s : Store) :
  bind m k s = k (fst (m s)) (snd (m s)).
Proof. unfold bind. now destruct (m s). Qed.

Lemma exec_bind {A B : Type} (m : IO A) (k : A -> IO B) (s : Store) :
  exec (bind m k) s = exec (k (result m s)) (exec m s).
Proof. unfold exec, result. now rewrite bind_run. Qed.

Lemma getBible_run (now : Z) (p : string) (s : Store) :
  getBible now p s = (loaded now p s, touched now p s).
Proof.
  unfold getBible, loaded, touched. rewrite bind_run. unfold getAll. simpl.
  destruct (s !! p); reflexivity.
Qed.

Lemma putBible_run (now : Z) (b : Bible) (s : Store) :
  putBible now b s = (tt, <[projectId b := pruneBible (stamp now b)]> s).
Proof. reflexivity. Qed.

Lemma loaded_projectId (now : Z) (p : string) (s : Store) :
  projectId (loaded now p s) = p.
Proof. apply migrate_projectId. Qed.

Lemma insert_touched (now : Z) (p : string) (b : Bible) (s : Store) :
  <[p := b]> (touched now p s) = <[p := b]> s.
Proof.
  unfold touched. destruct (s !! p); [reflexivity | apply insert_insert_eq].
Qed.

(** An operation that loads the aggregate and saves a new version of it
    under the same project id. *)
Lemma load_then_put (now : Z) (p : string) (f : Bible -> Bible) (s : Store) :
  (forall b, projectId (f b) = projectId b) ->
  exec (let! b := getBible now p in putBible now (f b)) s =
  <[p := pruneBible (stamp now (f (loaded now p s)))]> s.
Proof.
  intros Hf. unfold exec. rewrite bind_run, getBible_run. simpl.
  rewrite Hf, loaded_projectId. apply insert_touched.
Qed.

Lemma exec_getBible (now : Z) (p : string) (s : Store) :
  exec (getBible now p) s = touched now p s.
Proof. unfold exec. now rewrite getBible_run. Qed.

Lemma exec_putBible (now : Z) (b : Bible) (s : Store) :
  exec (putBible now b) s = <[projectId b := pruneBible (stamp now b)]> s.
Proof. reflexivity. Qed.

Lemma exec_upsertEntity (now : Z) (p : string) (e : EntityInput) (s : Store) :
  exec (upsertEntity now p e) s =
  <[p := pruneBible
           (stamp now
              (set_entities (loaded now p s)
                 (upsert_into (entities (loaded now p s)) e) now))]> s.
Proof.
  unfold upsertEntity.
  now rewrite (load_then_put now p (fun b => set_entities b (upsert_into (entities b) e) now)).
Qed.

Lemma exec_upsertEntities (now : Z) (p : string) (es : list EntityInput) (s : Store) :
  exec (upsertEntities now p es) s =
  match es with
  | [] => s
  | _ :: _ =>
      <[p := pruneBible
               (stamp now
                  (set_entities (loaded now p s)
                     (fold_left upsert_into es (entities (loaded now p s))) now))]> s
  end.
Proof.
  destruct es as [|e es]; [reflexivity|]. unfold upsertEntities.
  now rewrite (load_then_put now p
    (fun b => set_entities b (fold_left upsert_into (e :: es) (entities b)) now)).
Qed.

Lemma exec_addEvidence (now : Z) (p id : string) (ev : Evidence) (s : Store) :
  exec (addEvidence now p id ev) s =
  match JsObj.get id (entities (loaded now p s)) with
  | None => touched now p s
  | Some cur =>
      <[p := pruneBible
               (stamp now
                  (set_entities (loaded now p s)
                     (JsObj.set id
                        (with_evidence cur (dedupeEvidence (ent_evidence cur ++ [ev])))
                        (entities (loaded now p s))) now))]> s
  end.
Proof.
  unfold addEvidence, exec. rewrite bind_run, getBible_run. simpl.
  destruct (JsObj.get id (entities (loaded now p s))); [|reflexivity].
  rewrite putBible_run. simpl. rewrite loaded_projectId. apply insert_touched.
Qed.

Lemma exec_removeEntity (now : Z) (p id : string) (s : Store) :
  exec (removeEntity now p id) s =
  if JsObj.has id (entities (loaded now p s))
  then <[p := pruneBible
                (stamp now
                   (set_entities (loaded now p s)
                      (JsObj.delete id (entities (loaded now p s))) now))]> s
  else touched now p s.
Proof.
  unfold removeEntity, exec. rewrite bind_run, getBible_run. simpl.
  destruct (JsObj.has id (entities (loaded now p s))); [|reflexivity].
  rewrite putBible_run. simpl. rewrite loaded_projectId. apply insert_touched.
Qed.

Lemma exec_upsertThread (now : Z) (p : string) (t : ThreadInput) (s : Store) :
  exec (upsertThread now p t) s =
  if String.eqb (JsString.trim (ti_name t)) ""
  then touched now p s
  else
    <[p := pruneBible
             (stamp now
                (set_threads (loaded now p s)
                   (upsert_thread_into now (threads (loaded now p s))
                      (JsString.trim (ti_name t)) t) now))]> s.
Proof.
  unfold upsertThread, exec. rewrite bind_run, getBible_run. simpl.
  destruct (String.eqb (JsString.trim (ti_name t)) ""); [reflexivity|].
  rewrite putBible_run. simpl. rewrite loaded_projectId. apply insert_touched.
Qed.

Lemma exec_closeThread (now : Z) (p name : string) (s : Store) :
  exec (closeThread now p name) s =
  match JsArray.findIndex (has_name name) (threads (loaded now p s)) with
  | Some i =>
      <[p := pruneBible
               (stamp now
                  (set_threads (loaded now p s)
                     (JsArray.set_at i
                        (close_thread now
                           (nth i (threads (loaded now p s)) (new_thread now name)))
                        (threads (loaded now p s)))
                     (updatedAt (loaded now p s))))]> s
  | None => touched now p s
  end.
Proof.
  unfold closeThread, exec. rewrite bind_run, getBible_run. simpl.
  destruct (JsArray.findIndex _ _); [|reflexivity].
  rewrite putBible_run. simpl. rewrite loaded_projectId. apply insert_touched.
Qed.

Lemma exec_removeThread (now : Z) (p name : string) (s : Store) :
  exec (removeThread now p name) s =
  match JsArray.findIndex (has_name name) (threads (loaded now p s)) with
  | Some i =>
      <[p := pruneBible
               (stamp now
                  (set_threads (loaded now p s)
                     (JsArray.remove_at i (threads (loaded now p s))) now))]> s
  | None => touched now p s
  end.
Proof.
  unfold removeThread, exec. rewrite bind_run, getBible_run. simpl.
  destruct (JsArray.findIndex _ _); [|reflexivity].
  rewrite putBible_run. simpl. rewrite loaded_projectId. apply insert_touched.
Qed.

Lemma exec_upsertThreads_cons (now : Z) (p : string) (t : ThreadInput)
      (ts : list ThreadInput) (s : Store) :
  exec (upsertThreads now p (t :: ts)) s =
  exec (upsertThreads now p ts) (exec (upsertThread now p (import_thread t)) s).
Proof. simpl. now rewrite exec_bind. Qed.

Lemma exec_importBible (now : Z) (p : string) (incoming : Incoming) (s : Store) :
  exec (importBible now p incoming) s =
  let s1 := touched now p s in
  let s2 :=
    match in_entities incoming with
    | Some ents => exec (upsertEntities now p (map import_entity ents)) s1
    | None => s1
    end in
  let s3 :=
    match in_threads incoming with
    | Some ts => exec (upsertThreads now p ts) s2
    | None => s2
    end in
  <[p := pruneBible
           (stamp now
              (set_style (loaded now p s3)
                 (JsObj.spread2 (style (loaded now p s3))
                    (match in_style incoming with Some st => st | None => [] end))))]> s3.
Proof.
  unfold importBible. rewrite exec_bind, exec_getBible.
  rewrite exec_bind.
  rewrite exec_bind.
  rewrite (load_then_put now p
    (fun cur => set_style cur (JsObj.spread2 (style cur)
       (match in_style incoming with Some st => st | None => [] end))))
    by reflexivity.
  cbv zeta.
  destruct (in_entities incoming), (in_threads incoming); reflexivity.
Qed.

Lemma exec_clearBible (p : string) (s : Store) :
  exec (clearBible p) s = base.delete p s.
Proof. reflexivity. Qed.



(** ** What operations leave in the bucket *)

Lemma extends_refl (s : Store) : extends s s.
Proof. intros p b H. now left. Qed.

Lemma extends_trans (s1 s2 s3 : Store) :
  extends s1 s2 -> extends s2 s3 -> extends s1 s3.
Proof.
  intros H12 H23 p b H. destruct (H23 p b H) as [H2|Hw]; [now apply H12 | now right].
Qed.

Lemma extends_insert (s : Store) (p : string) (b : Bible) :
  written b -> extends s (<[p := b]> s).
Proof.
  intros Hw q b' H. destruct (decide (p = q)) as [->|Hne].
  - rewrite lookup_insert_eq in H. injection H as <-. now right.
  - rewrite lookup_insert_ne in H by assumption. now left.
Qed.

Lemma extends_put (s : Store) (now : Z) (p : string) (b : Bible) :
  extends s (<[p := pruneBible (stamp now b)]> s).
Proof. apply extends_insert. left. eauto. Qed.

Lemma extends_touched (s : Store) (now : Z) (p : string) :
  extends s (touched now p s).
Proof.
  unfold touched. destruct (s !! p); [apply extends_refl|].
  apply extends_insert. right. eauto.
Qed.

Lemma extends_delete (s : Store) (p : string) : extends s (base.delete p s).
Proof.
  intros q b' H. destruct (decide (p = q)) as [->|Hne].
  - now rewrite lookup_delete_eq in H.
  - rewrite lookup_delete_ne in H by assumption. now left.
Qed.

Lemma extends_upsertThreads (now : Z) (p : string) (ts : list ThreadInput) (s : Store) :
  extends s (exec (upsertThreads now p ts) s).
Proof.
  revert s. induction ts as [|t ts IH]; intros s; [apply extends_refl|].
  rewrite exec_upsertThreads_cons.
  eapply extends_trans; [|apply IH].
  rewrite exec_upsertThread.
  destruct (String.eqb _ _); [apply extends_touched | apply extends_put].
Qed.

Lemma extends_upsertEntities (now : Z) (p : string) (es : list EntityInput) (s : Store) :
  extends s (exec (upsertEntities now p es) s).
Proof.
  rewrite exec_upsertEntities. destruct es; [apply extends_refl | apply extends_put].
Qed.

Lemma run_extends (now : Z) (op : Op) (s : Store) : extends s (exec (run now op) s).
Proof.
  destruct op; simpl.
  - rewrite exec_bind, exec_getBible. apply extends_touched.
  - rewrite exec_putBible. apply extends_put.
  - rewrite exec_upsertEntity. apply extends_put.
  - rewrite exec_addEvidence.
    destruct (JsObj.get _ _); [apply extends_put | apply extends_touched].
  - apply extends_upsertEntities.
  - rewrite exec_upsertThread.
    destruct (String.eqb _ _); [apply extends_touched | apply extends_put].
  - rewrite exec_closeThread.
    destruct (JsArray.findIndex _ _); [apply extends_put | apply extends_touched].
  - rewrite exec_removeEntity.
    destruct (JsObj.has _ _); [apply extends_put | apply extends_touched].
  - rewrite exec_removeThread.
    destruct (JsArray.findIndex _ _); [apply extends_put | apply extends_touched].
  - rewrite exec_importBible. cbv zeta.
    destruct (in_entities incoming), (in_threads incoming);
      repeat (eapply extends_trans;
              [|first [apply extends_put | apply extends_upsertThreads
                      | apply extends_upsertEntities]]);
      apply extends_touched.
  - rewrite exec_clearBible. apply extends_delete.
Qed.



Lemma written_schemaVersion (b : Bible) :
  written b -> schemaVersion b = Some SCHEMA_VERSION.
Proof. intros [(now & b0 & ->)|(now & p & ->)]; reflexivity. Qed.



(** ** Entities through a write *)

Lemma prune_entities_idem (l : JsObj Entity) :
  prune_entities (prune_entities l) = prune_entities l.
Proof.
  unfold prune_entities.
  rewrite (clamp_entities_small (map _ _))
    by (rewrite length_map; apply clamp_entities_length).
  rewrite map_map. apply map_ext. intros. apply clamp_evidence_idem.
Qed.

Lemma prune_entities_length (l : JsObj Entity) :
  length (prune_entities l) = Nat.min (length l) MAX_ENTITIES.
Proof.
  unfold prune_entities, clamp_entities. rewrite length_map.
  destruct (Nat.ltb_spec MAX_ENTITIES (length l)); [rewrite length_firstn|]; lia.
Qed.


Lemma loaded_entities (now : Z) (p : string) (s : Store) :
  entities (loaded now p s) = prune_entities (stored_entities p s).
Proof. unfold loaded, stored_entities. now destruct (s !! p). Qed.

Lemma stored_entities_insert (p : string) (b : Bible) (s : Store) :
  stored_entities p (<[p := b]> s) = entities b.
Proof. unfold stored_entities. now rewrite lookup_insert_eq. Qed.

Lemma stored_entities_upsert (now : Z) (p : string) (e : EntityInput) (s : Store) :
  stored_entities p (exec (upsertEntity now p e) s) =
  prune_entities (upsert_into (prune_entities (stored_entities p s)) e).
Proof.
  rewrite exec_upsertEntity, stored_entities_insert. simpl.
  now rewrite loaded_entities.
Qed.




(** *** Canonical ids *)

Lemma alpha_not_digit (c : ascii) :
  JsString.is_alpha c = true ->
  JsString.is_digit c = false /\ Ascii.eqb c "0" = false.
Proof.
  destruct c as [[] [] [] [] [] [] [] []]; vm_compute; intuition congruence.
Qed.

Lemma letters_then_colon_not_index (id : string) :
  JsString.letters_then_colon false id = true -> JsObj.array_index id = None.
Proof.
  destruct id as [|c rest]; simpl; [discriminate|].
  destruct (JsString.is_alpha c) eqn:Ha; [|discriminate].
  intros _. destruct (alpha_not_digit c Ha) as [Hd H0].
  unfold JsObj.array_index. rewrite H0. simpl. now rewrite Hd.
Qed.

Lemma ensureIdPrefix_prefixed (id : string) (t : BibleEntityType) :
  JsString.letters_then_colon false (ensureIdPrefix id t) = true.
Proof.
  unfold ensureIdPrefix.
  destruct (JsString.letters_then_colon false id) eqn:E; [assumption|].
  destruct t; reflexivity.
Qed.

Lemma canonical_id_prefixed (e : EntityInput) :
  JsString.letters_then_colon false (canonical_id e) = true.
Proof. apply ensureIdPrefix_prefixed. Qed.

Lemma canonical_id_not_index (e : EntityInput) :
  JsObj.array_index (canonical_id e) = None.
Proof. apply letters_then_colon_not_index, canonical_id_prefixed. Qed.

(** *** Merging the same delta again *)

Lemma dedupe_entity_merge (prev : option Entity) (e : EntityInput) :
  dedupe_entity (merge_entity prev e) = merge_entity prev e.
Proof.
  unfold dedupe_entity, with_evidence, merge_entity. simpl.
  now rewrite dedupeEvidence_idem.
Qed.





(** ** Own-property order

    The model writes [firstn MAX_ENTITIES entries] for
    [Object.fromEntries(new Map(entries.slice(0, MAX_ENTITIES)))] and [a]
    for [{...a}].  Both rebuild an object by setting its properties in
    the order of an enumeration; on an object in own-property order that
    gives the enumeration back. *)

Lemma sorted_snoc_inv (l : list string) (k : string) :
  StronglySorted key_before (l ++ [k]) ->
  StronglySorted key_before l /\ Forall (fun x => key_before x k) l.
Proof.
  induction l as [|x l IH]; simpl; intros H.
  - split; constructor.
  - inversion H as [|? ? Hs Hall]; subst.
    destruct (IH Hs) as [Hl Hk]. apply List.Forall_app in Hall as [Hxl Hxk].
    split; constructor; auto. now inversion Hxk.
Qed.

Lemma sorted_prefix (l1 l2 : list string) :
  StronglySorted key_before (l1 ++ l2) -> StronglySorted key_before l1.
Proof.
  induction l1 as [|x l1 IH]; simpl; intros H; [constructor|].
  inversion H as [|? ? Hs Hall]; subst.
  apply List.Forall_app in Hall as [Hall _]. constructor; auto.
Qed.

Lemma canonical_prefix {V : Type} (o1 o2 : JsObj V) :
  canonical (o1 ++ o2) -> canonical o1.
Proof.
  unfold canonical, JsObj.keys. rewrite map_app. intros [Hnd Hs]. split.
  - now apply NoDup_app_remove_r in Hnd.
  - now apply sorted_prefix in Hs.
Qed.

Lemma canonical_firstn {V : Type} (n : nat) (o : JsObj V) :
  canonical o -> canonical (firstn n o).
Proof.
  intros H. rewrite <- (firstn_skipn n o) in H. now apply canonical_prefix in H.
Qed.

Lemma insert_index_last {V : Type} (n : N) (k : string) (v : V) (o : JsObj V) :
  Forall (fun x => exists m, JsObj.array_index x = Some m /\ (m < n)%N) (JsObj.keys o) ->
  JsObj.insert_index n k v o = o ++ [(k, v)].
Proof.
  induction o as [|[k' v'] o IH]; simpl; intros H; [reflexivity|].
  inversion H as [|? ? (m & Hm & Hlt) Hrest]; subst. rewrite Hm.
  destruct (N.ltb_spec m n); [|lia]. now rewrite IH.
Qed.

Lemma set_last {V : Type} (k : string) (v : V) (o : JsObj V) :
  canonical (o ++ [(k, v)]) -> JsObj.set k v o = o ++ [(k, v)].
Proof.
  unfold canonical, JsObj.keys. rewrite map_app. simpl. intros [Hnd Hs].
  assert (JsObj.get k o = None) as Hget.
  { apply obj_get_none_keys. intros Hin.
    apply NoDup_remove_2 in Hnd. apply Hnd. rewrite app_nil_r. exact Hin. }
  unfold JsObj.set, JsObj.has. rewrite Hget.
  destruct (JsObj.array_index k) as [n|] eqn:Hk; [|reflexivity].
  apply insert_index_last. apply sorted_snoc_inv in Hs as [_ Hall].
  revert Hall. apply List.Forall_impl. intros x Hx.
  unfold key_before in Hx. rewrite Hk in Hx.
  destruct (JsObj.array_index x) as [m|]; [eauto | contradiction].
Qed.

Lemma rebuild_canonical {V : Type} (l acc : JsObj V) :
  canonical (acc ++ l) ->
  fold_left (fun o kv => JsObj.set (fst kv) (snd kv) o) l acc = acc ++ l.
Proof.
  revert acc. induction l as [|[k v] l IH]; intros acc H; simpl.
  - now rewrite app_nil_r.
  - replace (acc ++ (k, v) :: l) with ((acc ++ [(k, v)]) ++ l) in *
      by now rewrite <- app_assoc.
    rewrite set_last by now apply canonical_prefix in H.
    now apply IH.
Qed.

(** [Object.fromEntries] of an enumeration in own-property order is that
    enumeration, and so is that of a prefix of it. *)
Lemma fromEntries_canonical {V : Type} (o : JsObj V) (n : nat) :
  canonical o ->
  JsObj.fromEntries o = o /\ JsObj.fromEntries (firstn n o) = firstn n o.
Proof.
  intros H. unfold JsObj.fromEntries. split.
  - now apply (rebuild_canonical o []).
  - apply (rebuild_canonical (firstn n o) []). now apply canonical_firstn.
Qed.

(** [{...a}] enumerates as [a]. *)
Lemma spread_canonical {V : Type} (a : JsObj V) :
  canonical a -> JsObj.spread2 [] a = a.
Proof. intros H. now apply (rebuild_canonical a []). Qed.

(** Own-property order survives an assignment to a present key or to a
    new key that is not an array index, as entity ids are. *)
Lemma set_canonical {V : Type} (k : string) (v : V) (o : JsObj V) :
  canonical o -> JsObj.has k o = true \/ JsObj.array_index k = None ->
  canonical (JsObj.set k v o).
Proof.
  unfold canonical. intros [Hnd Hs] Hk. unfold JsObj.set.
  destruct (JsObj.has k o) eqn:Hhas.
  - now rewrite obj_replace_keys.
  - destruct Hk as [|Hk]; [discriminate|]. rewrite Hk.
    apply obj_has_false, obj_get_none_keys in Hhas.
    unfold JsObj.keys in *. rewrite map_app. simpl. split.
    + apply List.NoDup_app; auto.
      * constructor; [intros [] | constructor].
      * intros x Hx [<-|[]]. contradiction.
    + clear Hnd Hhas. induction Hs as [|x l Hl IH Hall]; simpl.
      * constructor; constructor.
      * constructor; [assumption|].
        apply List.Forall_app. split; [assumption|].
        constructor; [|constructor].
        unfold key_before. rewrite Hk. now destruct (JsObj.array_index x).
Qed.

Lemma upsert_into_canonical (ents : JsObj Entity) (e : EntityInput) :
  canonical ents -> canonical (upsert_into ents e).
Proof.
  intros H. apply set_canonical; [assumption|]. right. apply canonical_id_not_index.
Qed.

(* ================================================================== *)
(** * The claims *)

(** ** C2: idempotence of [upsertEntity] *)



(** ** C4: entity ids and their type prefix *)




(** ** C6: an empty delta value *)

(** C6 fails on the code at an empty delta string: against the present
    value ["guilt"], [mergeAttrs] stores the two-element array
    [["guilt"; ""]] where the comment in the source wants the non-empty
    value preferred. *)
Theorem mergeAttrs_empty_string_is_appended :
  mergeAttrs [("motivation", AStr "guilt")] [("motivation", AStr "")] =
  [("motivation", AArr ["guilt"; ""])].
Proof. reflexivity. Qed.

(** What the claim says of a missing value does hold: a key that the
    delta does not have, or has with [null], leaves a present scalar as it
    is. *)
Lemma mergeAttrs_missing_value_keeps (a b : JsObj AttrVal) (k s : string) :
  JsObj.get k a = Some (AStr s) ->
  (~ In k (JsObj.keys b) -> JsObj.get k (mergeAttrs a b) = Some (AStr s)) /\
  mergeAttrs a [(k, ANull)] = a.
Proof.
  intros Ha. split.
  - intros Hk. now rewrite mergeAttrs_get_other.
  - unfold mergeAttrs, merge_entry. simpl. now rewrite Ha.
Qed.

(** ** C9: the read paths and the bucket *)




(** ** C5: the schema version *)

(** C5 (as stated) fails: every write stamps the current version, so an
    aggregate stored with version 2 is stored with version 1 after any
    write. *)
Lemma schemaVersion_lowered_by_write :
  let s : Store := <["p1" := from_the_future]> ∅ in
  schemaVersion <$> (s !! "p1") = Some (Some 2%Z) /\
  schemaVersion <$> (exec (upsertEntity 5 "p1" mercy_guilt) s !! "p1") = Some (Some 1%Z).
Proof. split; vm_compute; reflexivity. Qed.

(** C5 (amended). Loading passes a stored schema version through
    unchanged, also one above the current version, and stamps version 1
    on a record without one; every aggregate an operation puts into the
    bucket carries the current [SCHEMA_VERSION]; hence the stored version
    never decreases across an operation as long as it does not exceed
    [SCHEMA_VERSION]. *)
Theorem schemaVersion_across_operations :
  (forall now b p,
     schemaVersion (migrate now (Some b) p) =
     match schemaVersion b with Some v => Some v | None => Some 1%Z end) /\
  (forall now op s p b',
     exec (run now op) s !! p = Some b' ->
     s !! p = Some b' \/ schemaVersion b' = Some SCHEMA_VERSION) /\
  (forall now op s p b b' v,
     s !! p = Some b -> schemaVersion b = Some v -> (v <= SCHEMA_VERSION)%Z ->
     exec (run now op) s !! p = Some b' ->
     exists v', schemaVersion b' = Some v' /\ (v <= v')%Z).
Proof.
  split; [reflexivity|]. split.
  - intros now op s p b' H.
    destruct (run_extends now op s p b' H) as [H0|Hw]; [now left|].
    right. now apply written_schemaVersion.
  - intros now op s p b b' v Hb Hv Hle H.
    destruct (run_extends now op s p b' H) as [H0|Hw].
    + exists v. split; [congruence | lia].
    + exists SCHEMA_VERSION. split; [now apply written_schemaVersion | assumption].
Qed.

Lemma schemaVersion_across_operations_witness :
  exists v', schemaVersion (pruneBible (stamp 5
      (set_entities (loaded 5 "p1" (<["p1" := empty_bible 0 "p1"]> ∅))
         (upsert_into (entities (loaded 5 "p1" (<["p1" := empty_bible 0 "p1"]> ∅))) mercy_guilt)
         5))) = Some v' /\ (1 <= v')%Z.
Proof.
  destruct schemaVersion_across_operations as (_ & _ & H).
  apply (H 5%Z (UpsertEntity "p1" mercy_guilt) (<["p1" := empty_bible 0 "p1"]> ∅)
           "p1" (empty_bible 0 "p1")).
  - reflexivity.
  - reflexivity.
  - unfold SCHEMA_VERSION. lia.
  - simpl. rewrite exec_upsertEntity. apply lookup_insert_eq.
Defined.

(** ** C1: the scenario of the specification *)




(** Below the quota, an object of deduplicated entities extended by one
    more is stored as it is. *)
Lemma prune_entities_room (ents : JsObj Entity) (k : string) (m : Entity) :
  map clamp_evidence ents = ents -> dedupe_entity m = m ->
  (length ents < MAX_ENTITIES)%nat ->
  prune_entities (ents ++ [(k, m)]) = ents ++ [(k, m)].
Proof.
  intros Hents Hm Hlen. unfold prune_entities.
  rewrite clamp_entities_small by (rewrite length_app; simpl; lia).
  rewrite map_app, Hents. simpl. unfold clamp_evidence. simpl. now rewrite Hm.
Qed.

Lemma prune_entities_fixed (l : JsObj Entity) :
  map clamp_evidence (prune_entities l) = prune_entities l.
Proof.
  unfold prune_entities. rewrite map_map. apply map_ext.
  intros. apply clamp_evidence_idem.
Qed.




(** ** Threads through a write *)












Lemma NoDup_firstn {A : Type} (n : nat) (l : list A) :
  List.NoDup l -> List.NoDup (firstn n l).
Proof.
  intros H. rewrite <- (firstn_skipn n l) in H. now apply NoDup_app_remove_r in H.
Qed.




Section ThreadInvariant.
Variable P : list Thread -> Prop.
Variable side : ThreadInput -> Prop.
Hypothesis P_nil : P [].
Hypothesis P_prune : forall ts, P ts -> P (map prune_thread (clamp_threads ts)).
Hypothesis P_upsert :
  forall now ts t, side t -> P ts ->
    P (upsert_thread_into now ts (JsString.trim (ti_name t)) t).
Hypothesis P_close :
  forall now i ts d, P ts -> P (JsArray.set_at i (close_thread now (nth i ts d)) ts).
Hypothesis P_remove : forall i ts, P ts -> P (JsArray.remove_at i ts).
Hypothesis side_import : forall t, side t -> side (import_thread t).









End ThreadInvariant.

(** *** Names *)






(** *** Todos *)






(** ** C3: thread names *)





(** The lookup of [upsertThread] uses the trimmed name and the stored
    thread keeps the name as given: a name with white space around it is
    never found again, and is appended once more. *)
Lemma upsertThread_padded_name_appended_again :
  map thr_name
    (stored_threads "p1"
       (exec (upsertThread 5 "p1" padded_arc) (exec (upsertThread 4 "p1" padded_arc) ∅))) =
  [" arc "; " arc "].
Proof. vm_compute. reflexivity. Qed.



(** ** C7: quota and validity bounds *)



Lemma distinct_NoDup (l : list string) : distinct l = true -> List.NoDup l.
Proof.
  induction l as [|x l IH]; simpl; [constructor|].
  intros H. apply Bool.andb_true_iff in H as [Hx Hl].
  constructor; [|auto].
  apply Bool.negb_true_iff in Hx. rewrite <- existsb_eqb_In. congruence.
Qed.




(** ** C8: the snapshot *)












(** ** C10: [addEvidence] *)










(* ================================================================== *)
(** * Further properties of the store *)

(** ** Evidence, pruning and loading *)

Lemma first_by_In {A : Type} (key : A -> string) (seen : list string) (l : list A) (x : A) :
  In x (first_by key seen l) -> In x l.
Proof.
  revert seen. induction l as [|y l IH]; intros seen; simpl; [tauto|].
  destruct (existsb _ seen); simpl; [eauto|]. intros [->|H]; eauto.
Qed.

Lemma dedupeEvidence_fixed (items : list Evidence) :
  List.NoDup (map evidence_key items) ->
  (length items <= MAX_EVIDENCE_PER_ENTITY)%nat ->
  dedupeEvidence items = items.
Proof.
  intros Hnd Hlen. rewrite dedupeEvidence_spec.
  rewrite first_by_fresh by (auto; intros ? ? []).
  now apply firstn_all2.
Qed.

(** X1. [dedupeEvidence] returns at most 20 entries, with pairwise
    distinct keys, all taken from its argument; it leaves its own results
    as they are, and also any list of at most 20 entries with pairwise
    distinct keys. *)
Theorem dedupeEvidence_contract (items : list Evidence) :
  (length (dedupeEvidence items) <= MAX_EVIDENCE_PER_ENTITY)%nat /\
  List.NoDup (map evidence_key (dedupeEvidence items)) /\
  (forall e, In e (dedupeEvidence items) -> In e items) /\
  dedupeEvidence (dedupeEvidence items) = dedupeEvidence items /\
  (List.NoDup (map evidence_key items) ->
   (length items <= MAX_EVIDENCE_PER_ENTITY)%nat ->
   dedupeEvidence items = items).
Proof.
  split; [apply dedupeEvidence_length|].
  split; [apply dedupeEvidence_NoDup|].
  split; [|split; [apply dedupeEvidence_idem|]].
  - intros e. rewrite dedupeEvidence_spec. intros H.
    apply (first_by_In evidence_key [] items).
    rewrite <- (firstn_skipn MAX_EVIDENCE_PER_ENTITY (first_by _ _ _)).
    apply in_or_app. now left.
  - apply dedupeEvidence_fixed.
Qed.

Lemma dedupeEvidence_contract_witness :
  dedupeEvidence [for_her; in_chapter_two] = [for_her; in_chapter_two].
Proof.
  destruct (dedupeEvidence_contract [for_her; in_chapter_two]) as (_ & _ & _ & _ & H).
  apply H.
  - apply distinct_NoDup. vm_compute. reflexivity.
  - vm_compute. lia.
Defined.

Lemma stored_entities_touched (now : Z) (p : string) (s : Store) :
  stored_entities p (touched now p s) = stored_entities p s.
Proof.
  unfold touched, stored_entities. destruct (s !! p) eqn:E.
  - now rewrite E.
  - now rewrite lookup_insert_eq.
Qed.


Lemma stored_threads_insert (p : string) (b : Bible) (s : Store) :
  stored_threads p (<[p := b]> s) = threads b.
Proof. unfold stored_threads. now rewrite lookup_insert_eq. Qed.





Lemma hook_ok_keep (n : JsNumber) : hook_ok n -> keep_hook n = true.
Proof.
  intros (q & -> & H0 & H1). unfold keep_hook. simpl.
  apply Bool.andb_true_iff. split; now apply Qle_bool_iff.
Qed.

Lemma filter_all {A : Type} (f : A -> bool) (l : list A) :
  Forall (fun x => f x = true) l -> List.filter f l = l.
Proof.
  induction 1 as [|x l Hx _ IH]; simpl; [reflexivity|]. now rewrite Hx, IH.
Qed.

Lemma map_fixed {A : Type} (f : A -> A) (l : list A) :
  Forall (fun x => f x = x) l -> map f l = l.
Proof.
  induction 1 as [|x l Hx _ IH]; simpl; [reflexivity|]. now rewrite Hx, IH.
Qed.

Lemma entity_ok_fixed (kv : string * Entity) :
  entity_ok (snd kv) -> clamp_evidence kv = kv.
Proof.
  destruct kv as [k [id ty attrs ev]]. unfold entity_ok. simpl. intros [Hlen Hnd].
  unfold clamp_evidence, dedupe_entity, with_evidence. simpl.
  now rewrite dedupeEvidence_fixed.
Qed.

Lemma thread_ok_fixed (t : Thread) : thread_ok t -> prune_thread t = t.
Proof.
  destruct t as [name st notes hooks todos upd cre]. unfold thread_ok. simpl.
  intros [Hlen Hhooks]. unfold prune_thread. simpl.
  rewrite firstn_all2 by assumption.
  rewrite filter_all; [reflexivity|].
  revert Hhooks. apply List.Forall_impl. apply hook_ok_keep.
Qed.

(** X3. The aggregates that [pruneBible] leaves as they are are exactly
    those within the bounds: at most 2000 entities and 500 threads, per
    entity at most 20 evidence entries with distinct keys, per thread at
    most 40 todos and only finite hooks within [0,1].  What it returns is
    always one of them, so pruning twice is pruning once. *)
Theorem pruneBible_fixed_points (b : Bible) :
  (pruneBible b = b <-> bounds_ok b) /\
  pruneBible (pruneBible b) = pruneBible b.
Proof.
  split; [|apply pruneBible_idem]. split.
  - intros H. rewrite <- H. apply pruneBible_bounds.
  - intros (He & Ht & Hents & Hthr).
    destruct b as [pid upd ver ents ths sty]. simpl in *.
    unfold pruneBible. simpl.
    rewrite clamp_entities_small, clamp_threads_small by assumption.
    f_equal.
    + apply map_fixed. revert Hents. apply List.Forall_impl.
      intros kv. apply entity_ok_fixed.
    + apply map_fixed. revert Hthr. apply List.Forall_impl.
      intros t. apply thread_ok_fixed.
Qed.

Lemma pruneBible_fixed_points_witness :
  pruneBible (pruneBible overgrown) = pruneBible overgrown.
Proof.
  destruct (pruneBible_fixed_points (pruneBible overgrown)) as [[_ H] _].
  apply H. apply pruneBible_bounds.
Defined.

(** ** Loading and saving *)

Lemma migrate_again (now now' : Z) (ob : option Bible) (p : string) :
  migrate now' (Some (migrate now ob p)) p = migrate now ob p.
Proof.
  destruct ob as [b|]; [|reflexivity].
  unfold migrate. destruct (schemaVersion b);
    match goal with |- _ = pruneBible ?B => exact (pruneBible_idem B) end.
Qed.

(** X4. Loading is idempotent: a second [getBible] for the same project,
    with no write in between, returns the aggregate the first one
    returned and leaves the bucket as the first one left it, whether or
    not the first one had to create the aggregate. *)
Theorem getBible_twice (now1 now2 : Z) (p : string) (s : Store) :
  result (getBible now2 p) (exec (getBible now1 p) s) = result (getBible now1 p) s /\
  exec (getBible now2 p) (exec (getBible now1 p) s) = exec (getBible now1 p) s.
Proof.
  unfold result, exec. rewrite !getBible_run. simpl. unfold loaded, touched.
  destruct (s !! p) as [b|] eqn:E.
  - now rewrite E.
  - rewrite lookup_insert_eq. split; reflexivity.
Qed.

(** X5. What [getBible] returns is within all the bounds, whatever the
    bucket holds: it carries the project id that was asked for, has a
    schema version, and is a fixed point of loading, so that loading what
    was loaded gives it back. *)
Theorem getBible_normalizes (now now' : Z) (p : string) (s : Store) :
  let b := result (getBible now p) s in
  bounds_ok b /\ projectId b = p /\ schemaVersion b <> None /\
  migrate now' (Some b) p = b.
Proof.
  unfold result. rewrite getBible_run. cbn [fst]. unfold loaded.
  split; [apply migrate_bounds|]. split; [apply migrate_projectId|].
  split; [|apply (migrate_again now now')].
  destruct (s !! p) as [b|]; simpl; [destruct (schemaVersion b)|]; discriminate.
Qed.


(** ** Entities: lookup, frame, batches, removal *)





Lemma obj_get_firstn_none {V : Type} (n : nat) (k : string) (o : JsObj V) :
  JsObj.get k o = None -> JsObj.get k (firstn n o) = None.
Proof.
  intros H. destruct (JsObj.get k (firstn n o)) eqn:E; [|reflexivity].
  apply obj_get_firstn_some in E. congruence.
Qed.















Lemma obj_delete_length {V : Type} (k : string) (o : JsObj V) :
  (length (JsObj.delete k o) <= length o)%nat.
Proof. unfold JsObj.delete. apply List.filter_length_le. Qed.

Lemma obj_delete_absent {V : Type} (k : string) (o : JsObj V) :
  JsObj.get k o = None -> JsObj.delete k o = o.
Proof.
  unfold JsObj.delete. induction o as [|[k' v'] o IH]; simpl; [reflexivity|].
  destruct (String.eqb k k'); simpl; [discriminate|]. intros H. now rewrite IH.
Qed.

Lemma obj_delete_app {V : Type} (k : string) (o1 o2 : JsObj V) :
  JsObj.delete k (o1 ++ o2) = JsObj.delete k o1 ++ JsObj.delete k o2.
Proof. unfold JsObj.delete. apply List.filter_app. Qed.

Lemma map_clamp_delete (k : string) (o : JsObj Entity) :
  map clamp_evidence (JsObj.delete k o) = JsObj.delete k (map clamp_evidence o).
Proof.
  unfold JsObj.delete. induction o as [|[k' v'] o IH]; simpl; [reflexivity|].
  destruct (String.eqb k k'); simpl; [assumption | now rewrite IH].
Qed.

Lemma prune_entities_delete (k : string) (l : JsObj Entity) :
  prune_entities (JsObj.delete k (prune_entities l)) = JsObj.delete k (prune_entities l).
Proof.
  unfold prune_entities at 1.
  rewrite clamp_entities_small.
  - now rewrite map_clamp_delete, prune_entities_fixed.
  - pose proof (obj_delete_length k (prune_entities l)).
    rewrite prune_entities_length in *. lia.
Qed.

Lemma stored_entities_removeEntity (now : Z) (p id : string) (s : Store) :
  prune_entities (stored_entities p s) = stored_entities p s ->
  stored_entities p (exec (removeEntity now p id) s) =
  JsObj.delete id (stored_entities p s).
Proof.
  intros Hs. rewrite exec_removeEntity, loaded_entities, Hs.
  destruct (JsObj.has id _) eqn:Hhas.
  - rewrite stored_entities_insert.
    change (prune_entities (JsObj.delete id (stored_entities p s)) =
            JsObj.delete id (stored_entities p s)).
    rewrite <- Hs. apply prune_entities_delete.
  - rewrite stored_entities_touched. symmetry.
    now apply obj_delete_absent, obj_has_false.
Qed.



(** X10. Insert and delete round-trip: upserting an entity whose
    canonical id the project does not have and removing it under that id
    leaves the entities as they were loaded, below the quota and at it. *)
Theorem upsert_then_remove (now1 now2 : Z) (p : string) (e : EntityInput) (s : Store) :
  JsObj.get (canonical_id e) (entities (loaded now1 p s)) = None ->
  stored_entities p
    (exec (removeEntity now2 p (canonical_id e)) (exec (upsertEntity now1 p e) s)) =
  entities (loaded now1 p s).
Proof.
  rewrite loaded_entities. intros Hfresh.
  set (E := prune_entities (stored_entities p s)) in *.
  assert (stored_entities p (exec (upsertEntity now1 p e) s) = E \/
          stored_entities p (exec (upsertEntity now1 p e) s) =
            E ++ [(canonical_id e, merge_entity None e)]) as Hup.
  { rewrite stored_entities_upsert. fold E.
    unfold upsert_into. cbv zeta. rewrite Hfresh.
    rewrite obj_set_new by (auto using canonical_id_not_index).
    destruct (Nat.lt_ge_cases (length E) MAX_ENTITIES) as [Hlt|Hge].
    - right. apply prune_entities_room;
        [apply prune_entities_fixed | apply dedupe_entity_merge | assumption].
    - left. assert (length E = MAX_ENTITIES) as Hlen.
      { unfold E in *. rewrite prune_entities_length in *. lia. }
      unfold prune_entities at 1, clamp_entities. rewrite length_app, Hlen. simpl.
      destruct (Nat.ltb_spec MAX_ENTITIES (MAX_ENTITIES + 1)); [|lia].
      rewrite firstn_app, Hlen, Nat.sub_diag, firstn_all2 by lia.
      simpl. rewrite app_nil_r. apply prune_entities_fixed. }
  rewrite stored_entities_removeEntity.
  - destruct Hup as [->| ->].
    + now apply obj_delete_absent.
    + rewrite obj_delete_app, obj_delete_absent by assumption.
      unfold JsObj.delete. simpl. rewrite String.eqb_refl. simpl.
      apply app_nil_r.
  - rewrite stored_entities_upsert. apply prune_entities_idem.
Qed.

Lemma upsert_then_remove_witness :
  stored_entities "p1"
    (exec (removeEntity 2 "p1" (canonical_id mercy_guilt))
       (exec (upsertEntity 1 "p1" mercy_guilt) (<["p1" := full_bible]> ∅))) =
  entities (loaded 1 "p1" (<["p1" := full_bible]> ∅)).
Proof.
  apply (upsert_then_remove 1 2 "p1" mercy_guilt (<["p1" := full_bible]> ∅)).
  vm_compute. reflexivity.
Defined.

(** ** Attributes *)

Lemma first_by_length {A : Type} (key : A -> string) (seen : list string) (l : list A) :
  (length (first_by key seen l) <= length l)%nat.
Proof.
  revert seen. induction l as [|x l IH]; intros seen; simpl; [lia|].
  destruct (existsb _ seen); simpl;
    [specialize (IH seen) | specialize (IH (key x :: seen))]; lia.
Qed.

Lemma merge_slot_array_bounded (av : option AttrVal) (v : AttrVal) (items : list string) :
  merge_slot av v = Some (AArr items) ->
  List.NoDup items /\ (length items <= 50)%nat.
Proof.
  unfold merge_slot. destruct (is_array av || is_array (Some v)).
  - intros [= <-]. split; [apply NoDup_firstn, uniq_NoDup|].
    rewrite length_firstn. lia.
  - destruct v as [s|?| |?]; try discriminate.
    destruct av as [[a|?| |?]|]; try discriminate.
    destruct (negb _ && negb _); [|discriminate].
    intros [= <-]. split; [apply uniq_NoDup|].
    rewrite uniq_first_by.
    pose proof (first_by_length (fun s : string => s) [] [a; s]) as Hlen.
    change (length [a; s]) with 2%nat in Hlen. lia.
Qed.

Lemma merge_slot_none_scalar (av : option AttrVal) (v : AttrVal) :
  merge_slot av v = None -> is_array av = false.
Proof.
  unfold merge_slot. destruct (is_array av); [discriminate | reflexivity].
Qed.

Lemma mergeAttrs_get_entry (b : JsObj AttrVal) :
  List.NoDup (JsObj.keys b) ->
  forall a k v, In (k, v) b ->
    JsObj.get k (mergeAttrs a b) =
    match merge_slot (JsObj.get k a) v with
    | Some r => Some r
    | None => JsObj.get k a
    end.
Proof.
  induction b as [|[k0 v0] b IH]; intros Hnd a k v Hin; [destruct Hin|].
  inversion Hnd as [|? ? Hk Hnd']; subst.
  change (mergeAttrs a ((k0, v0) :: b)) with (mergeAttrs (merge_entry a (k0, v0)) b).
  destruct Hin as [[= -> ->]|Hin].
  - rewrite mergeAttrs_get_other by assumption.
    unfold merge_entry. simpl.
    destruct (merge_slot (JsObj.get k a) v); [apply obj_get_set_same | reflexivity].
  - rewrite (IH Hnd' _ k v Hin).
    assert (k <> k0) as Hne.
    { intros ->. apply Hk. unfold JsObj.keys. now apply (in_map fst) in Hin. }
    now rewrite (merge_entry_get_other a (k0, v0) k Hne).
Qed.

(** X11. However long the arrays handed to it, every array that
    [mergeAttrs] writes for a key of the delta has at most 50 items, all
    different. *)
Theorem mergeAttrs_arrays_bounded (a b : JsObj AttrVal) (k : string) (v : AttrVal)
        (items : list string) :
  List.NoDup (JsObj.keys b) -> In (k, v) b ->
  JsObj.get k (mergeAttrs a b) = Some (AArr items) ->
  List.NoDup items /\ (length items <= 50)%nat.
Proof.
  intros Hnd Hin. rewrite (mergeAttrs_get_entry b Hnd a k v Hin).
  destruct (merge_slot (JsObj.get k a) v) as [r|] eqn:E.
  - intros [= ->]. now apply merge_slot_array_bounded in E.
  - intros H. apply merge_slot_none_scalar in E. now rewrite H in E.
Qed.

Lemma mergeAttrs_arrays_bounded_witness :
  List.NoDup (array_at "tags" (mergeAttrs [("tags", AStr "first")] tagged)) /\
  (length (array_at "tags" (mergeAttrs [("tags", AStr "first")] tagged)) <= 50)%nat.
Proof.
  apply (mergeAttrs_arrays_bounded [("tags", AStr "first")] tagged "tags" (AArr sixty_tags)).
  - apply distinct_NoDup. vm_compute. reflexivity.
  - now left.
  - vm_compute. reflexivity.
Defined.

Lemma keys_entry {V : Type} (k : string) (o : JsObj V) :
  In k (JsObj.keys o) -> exists v, In (k, v) o.
Proof.
  unfold JsObj.keys. intros H. apply in_map_iff in H as ([k' v] & Hk & Hin).
  simpl in Hk. subst k'. eauto.
Qed.

Lemma uniq_cons (x : string) (l : list string) :
  uniq (x :: l) = x :: first_by (fun s => s) [x] l.
Proof. rewrite uniq_first_by. reflexivity. Qed.

(** X12. A merge does not lose what is present.  A non-empty string
    under a key is still among the values under that key after
    [mergeAttrs] with a delta of strings and arrays, and an array of at
    most 50 different items under a key is a prefix of the array found
    there afterwards: existing values come first. *)
Theorem mergeAttrs_keeps_present (a b : JsObj AttrVal) (k : string) :
  List.NoDup (JsObj.keys b) ->
  (forall x,
     JsObj.get k a = Some (AStr x) -> x <> "" ->
     (forall v, In (k, v) b -> declared v) ->
     In x (as_array (JsObj.get k (mergeAttrs a b)))) /\
  (forall l,
     JsObj.get k a = Some (AArr l) -> List.NoDup l -> (length l <= 50)%nat ->
     exists rest, JsObj.get k (mergeAttrs a b) = Some (AArr (l ++ rest))).
Proof.
  intros Hnd.
  destruct (in_dec string_dec k (JsObj.keys b)) as [Hin|Hnot].
  - apply keys_entry in Hin as [v Hin].
    rewrite (mergeAttrs_get_entry b Hnd a k v Hin). split.
    + intros x Ha Hx Hdecl. rewrite Ha. specialize (Hdecl v Hin).
      destruct v as [s|items| |image]; try contradiction.
      * unfold merge_slot. cbn [is_array orb].
        destruct (String.eqb_spec x s) as [->|Hne].
        -- rewrite Bool.andb_false_r. simpl. now left.
        -- destruct (String.eqb_spec x ""); [contradiction|].
           cbn [negb andb as_array]. rewrite uniq_cons. now left.
      * unfold merge_slot. cbn [is_array orb as_array app].
        rewrite uniq_cons. simpl. now left.
      * simpl. now left.
    + intros l Ha Hl Hlen. rewrite Ha.
      unfold merge_slot. cbn [is_array orb as_array].
      rewrite uniq_first_by, first_by_app.
      rewrite (first_by_fresh (fun s : string => s) [] l)
        by (rewrite ?map_id; auto; intros ? ? []).
      rewrite firstn_app, firstn_all2 by assumption. eauto.
  - rewrite mergeAttrs_get_other by assumption. split.
    + intros x -> _ _. now left.
    + intros l -> _ _. exists []. now rewrite app_nil_r.
Qed.

Lemma mergeAttrs_keeps_present_witness :
  In "first" (as_array (JsObj.get "tags" (mergeAttrs [("tags", AStr "first")] tagged))).
Proof.
  destruct (mergeAttrs_keeps_present [("tags", AStr "first")] tagged "tags") as [H _].
  - apply distinct_NoDup. vm_compute. reflexivity.
  - apply H.
    + reflexivity.
    + discriminate.
    + intros v [[= <-]|[]]. exact I.
Defined.

(** ** Threads *)

Section UniqFrom.
Context {A : Type} (eqb : A -> A -> bool).

Lemma uniq_from_different (seen l : list A) :
  StronglySorted (fun x y => eqb y x = false) (JsArray.uniq_from eqb seen l) /\
  Forall (fun y => forall z, In z seen -> eqb y z = false) (JsArray.uniq_from eqb seen l).
Proof.
  revert seen. induction l as [|x l IH]; intros seen; simpl.
  - split; constructor.
  - destruct (existsb (eqb x) seen) eqn:E; [apply IH|].
    destruct (IH (x :: seen)) as [Hs Hall]. split.
    + constructor; [assumption|].
      revert Hall. apply List.Forall_impl. intros y Hy. apply Hy. now left.
    + constructor.
      * intros z Hz. destruct (eqb x z) eqn:Exz; [|reflexivity].
        assert (existsb (eqb x) seen = true) as Hex
          by (apply existsb_exists; eauto).
        congruence.
      * revert Hall. apply List.Forall_impl. intros y Hy z Hz. apply Hy. now right.
Qed.

Lemma uniq_from_covers (seen l : list A) (x : A) :
  (forall y, eqb y y = true) -> In x l ->
  (exists z, In z seen /\ eqb x z = true) \/
  (exists y, In y (JsArray.uniq_from eqb seen l) /\ eqb x y = true).
Proof.
  intros Hrefl. revert seen. induction l as [|y l IH]; intros seen Hin; [destruct Hin|].
  simpl. destruct (existsb (eqb y) seen) eqn:E.
  - destruct Hin as [->|Hin]; [|now apply IH].
    left. apply existsb_exists in E as (z & Hz & Hyz). eauto.
  - destruct Hin as [->|Hin].
    + right. exists x. split; [now left | apply Hrefl].
    + destruct (IH (y :: seen) Hin) as [(z & [<-|Hz] & Hxz)|(z & Hz & Hxz)].
      * right. exists y. split; [now left | assumption].
      * left. eauto.
      * right. exists z. split; [now right | assumption].
Qed.

End UniqFrom.

Lemma same_refl (n : JsNumber) : JsNumber.same n n = true.
Proof.
  destruct n as [|neg|q]; simpl; [reflexivity | now destruct neg |].
  apply Qeq_bool_iff. reflexivity.
Qed.

Lemma same_keep_hook (x y : JsNumber) :
  JsNumber.same x y = true -> keep_hook x = keep_hook y.
Proof.
  destruct x as [|nx|p], y as [|ny|q]; simpl; try discriminate; try reflexivity.
  intros H. apply Qeq_bool_iff in H. unfold keep_hook. simpl.
  apply Bool.eq_true_iff_eq.
  rewrite !Bool.andb_true_iff, !Qle_bool_iff. now rewrite H.
Qed.

Lemma filter_filter_and {A : Type} (f g : A -> bool) (l : list A) :
  List.filter g (List.filter f l) = List.filter (fun x => f x && g x) l.
Proof.
  induction l as [|x l IH]; simpl; [reflexivity|].
  destruct (f x); simpl; [destruct (g x); now rewrite IH | assumption].
Qed.

Lemma sorted_filter {A : Type} (R : A -> A -> Prop) (f : A -> bool) (l : list A) :
  StronglySorted R l -> StronglySorted R (List.filter f l).
Proof.
  induction 1 as [|x l Hs IH Hall]; simpl; [constructor|].
  destruct (f x); [|assumption]. constructor; [assumption|].
  apply List.Forall_forall. intros y Hy. apply filter_In in Hy as [Hy _].
  rewrite List.Forall_forall in Hall. auto.
Qed.

Lemma merge_thread_hooks (now : Z) (base : Thread) (t : ThreadInput) :
  thr_hooks (merge_thread now base t) =
  List.filter keep_hook (JsArray.uniq JsNumber.same (thr_hooks base ++ ti_hooks t)).
Proof. simpl. apply filter_filter_and. Qed.

(** X13. The hooks of the thread that [upsertThread] writes are finite
    numbers within [0,1], no two of them the same number, and no valid
    hook is lost: every such hook of the stored thread or of the delta is
    among them. *)
Theorem upsertThread_hooks (now : Z) (base : Thread) (t : ThreadInput) :
  let hs := thr_hooks (merge_thread now base t) in
  Forall hook_ok hs /\
  different_numbers hs /\
  (forall h, In h (thr_hooks base ++ ti_hooks t) -> keep_hook h = true ->
             exists h', In h' hs /\ JsNumber.same h h' = true).
Proof.
  intros hs. subst hs. rewrite merge_thread_hooks. split; [|split].
  - apply List.Forall_forall. intros h Hh. apply filter_In in Hh as [_ Hh].
    now apply keep_hook_ok.
  - apply sorted_filter. apply (uniq_from_different JsNumber.same []).
  - intros h Hin Hkeep.
    destruct (uniq_from_covers JsNumber.same [] _ h same_refl Hin)
      as [(z & [] & _)|(y & Hy & Hsame)].
    exists y. split; [|assumption].
    apply filter_In. split; [assumption|].
    now rewrite <- (same_keep_hook h y Hsame).
Qed.

Lemma upsertThread_hooks_witness :
  exists h', In h' (thr_hooks (merge_thread 4 arc arc_input)) /\
             JsNumber.same (Finite (1 # 2)) h' = true.
Proof.
  destruct (upsertThread_hooks 4 arc arc_input) as (_ & _ & H).
  apply H; [simpl; tauto | reflexivity].
Defined.

(** X14. The todos of the thread that [upsertThread] writes are at most
    40, all different; the stored todos come first, all of them when they
    were at most 40 and all different; and a todo of the delta is missing
    only when the cap is reached. *)
Theorem upsertThread_todos (now : Z) (base : Thread) (t : ThreadInput) :
  let todos := thr_todos (merge_thread now base t) in
  (length todos <= MAX_TODOS_PER_THREAD)%nat /\
  List.NoDup todos /\
  (List.NoDup (thr_todos base) -> (length (thr_todos base) <= MAX_TODOS_PER_THREAD)%nat ->
   exists rest, todos = thr_todos base ++ rest) /\
  (forall x, In x (ti_todos t) -> In x todos \/ length todos = MAX_TODOS_PER_THREAD).
Proof.
  intros todos. subst todos. cbn [merge_thread thr_todos].
  split; [rewrite length_firstn; lia|].
  split; [apply NoDup_firstn, uniq_NoDup|]. split.
  - intros Hnd Hlen. rewrite uniq_first_by, first_by_app.
    rewrite (first_by_fresh (fun s : string => s) [] (thr_todos base))
      by (rewrite ?map_id; auto; intros ? ? []).
    rewrite firstn_app, firstn_all2 by assumption. eauto.
  - intros x Hx.
    set (u := uniq (thr_todos base ++ ti_todos t)).
    destruct (Nat.le_gt_cases (length u) MAX_TODOS_PER_THREAD) as [Hle|Hgt].
    + left. rewrite firstn_all2 by assumption. unfold u.
      rewrite uniq_first_by.
      pose proof (first_by_keys (fun s : string => s) []
                    (thr_todos base ++ ti_todos t) x) as Hk.
      rewrite !map_id in Hk. apply Hk. split; [|tauto].
      apply in_or_app. now right.
    + right. rewrite length_firstn. lia.
Qed.

Lemma upsertThread_todos_witness :
  exists rest, thr_todos (merge_thread 4 (prune_thread (merge_thread 3 arc arc_input)) arc_input) =
               thr_todos (prune_thread (merge_thread 3 arc arc_input)) ++ rest.
Proof.
  destruct (upsertThread_todos 4 (prune_thread (merge_thread 3 arc arc_input)) arc_input)
    as (_ & _ & H & _).
  apply H.
  - apply distinct_NoDup. vm_compute. reflexivity.
  - vm_compute. lia.
Defined.





Lemma nth_set_at {A : Type} (i j : nat) (x d : A) (l : list A) :
  nth j (JsArray.set_at i x l) d =
  if (Nat.eqb i j && (i <? length l))%nat then x else nth j l d.
Proof.
  revert i j. induction l as [|y l IH]; intros [|i] [|j]; simpl; try reflexivity.
  - now rewrite Bool.andb_false_r.
  - rewrite IH. reflexivity.
Qed.


Lemma prune_threads_small (ts : list Thread) :
  map prune_thread ts = ts -> (length ts <= MAX_THREADS)%nat ->
  map prune_thread (clamp_threads ts) = ts.
Proof. intros H Hlen. now rewrite clamp_threads_small. Qed.








(** ** Search *)

Lemma filter_true {A : Type} (l : list A) : List.filter (fun _ => true) l = l.
Proof. induction l as [|x l IH]; simpl; [reflexivity | now rewrite IH]. Qed.

Lemma filter_sublist {A : Type} (f : A -> bool) (l : list A) :
  sublist (List.filter f l) l.
Proof.
  induction l as [|x l IH]; simpl; [constructor|].
  destruct (f x); now constructor.
Qed.

Lemma result_searchBible (now : Z) (p q : string) (s : Store) :
  result (searchBible now p q) s =
  let b := loaded now p s in
  let qq := JsString.trim (JsString.toLowerCase q) in
  {| sr_entities := List.filter (entity_matches qq) (JsObj.values (entities b));
     sr_threads := List.filter (thread_matches qq) (threads b);
     sr_style := style b |}.
Proof. unfold searchBible, result. now rewrite bind_run, getBible_run. Qed.

(** X18. [searchBible] returns entities and threads of the loaded
    aggregate in the aggregate's own order, never anything else, and its
    style as it is; for a query that is empty or white space only it
    returns all of them. *)
Theorem searchBible_results (now : Z) (p q : string) (s : Store) :
  let b := loaded now p s in
  let r := result (searchBible now p q) s in
  sublist (sr_entities r) (JsObj.values (entities b)) /\
  sublist (sr_threads r) (threads b) /\
  sr_style r = style b /\
  (JsString.trim (JsString.toLowerCase q) = "" ->
   sr_entities r = JsObj.values (entities b) /\ sr_threads r = threads b).
Proof.
  intros b r. subst b r. rewrite result_searchBible. cbv zeta. simpl.
  split; [apply filter_sublist|]. split; [apply filter_sublist|].
  split; [reflexivity|]. intros ->. unfold entity_matches, thread_matches. simpl.
  now rewrite !filter_true.
Qed.

Lemma searchBible_results_witness :
  sr_entities (result (searchBible 9 "p1" "  ") two_entities) =
  JsObj.values (entities (loaded 9 "p1" two_entities)).
Proof.
  destruct (searchBible_results 9 "p1" "  " two_entities) as (_ & _ & _ & H).
  apply H. reflexivity.
Defined.

Lemma lower_unit_idem (c : ascii) :
  JsString.lower_unit (JsString.lower_unit c) = JsString.lower_unit c.
Proof. destruct c as [[] [] [] [] [] [] [] []]; vm_compute; reflexivity. Qed.

Lemma toLowerCase_idem (q : string) :
  JsString.toLowerCase (JsString.toLowerCase q) = JsString.toLowerCase q.
Proof.
  induction q as [|c q IH]; simpl; [reflexivity|]. now rewrite lower_unit_idem, IH.
Qed.

Lemma toLowerCase_app (a b : string) :
  JsString.toLowerCase (a ++ b)%string =
  (JsString.toLowerCase a ++ JsString.toLowerCase b)%string.
Proof. induction a as [|c a IH]; simpl; [reflexivity | now rewrite IH]. Qed.

Lemma prefix_app (q a b : string) :
  String.prefix q a = true -> String.prefix q (a ++ b)%string = true.
Proof.
  revert a. induction q as [|c q IH]; intros [|d a]; simpl; try reflexivity;
    try discriminate.
  - intros _. destruct b; reflexivity.
  - destruct (ascii_dec c d); [apply IH | discriminate].
Qed.

Lemma includes_app (q a b : string) :
  JsString.includes q a = true -> JsString.includes q (a ++ b)%string = true.
Proof.
  induction a as [|d a IH]; simpl.
  - rewrite Bool.orb_false_r. intros H.
    destruct q; [destruct b; reflexivity | discriminate].
  - intros H. apply Bool.orb_true_iff in H as [H|H]; apply Bool.orb_true_iff.
    + left. now apply (prefix_app q (String d a) b).
    + right. now apply IH.
Qed.

(** X19. The search is case-insensitive and looks into the id: the query
    and its lower-case form give the same result, and every entity whose
    id contains the trimmed query, letter case aside, is returned. *)
Theorem searchBible_case_insensitive (now : Z) (p q : string) (s : Store) :
  result (searchBible now p (JsString.toLowerCase q)) s = result (searchBible now p q) s /\
  (forall e,
     In e (JsObj.values (entities (loaded now p s))) ->
     JsString.includes (JsString.trim (JsString.toLowerCase q))
                       (JsString.toLowerCase (ent_id e)) = true ->
     In e (sr_entities (result (searchBible now p q) s))).
Proof.
  rewrite !result_searchBible. cbv zeta. rewrite toLowerCase_idem.
  split; [reflexivity|]. intros e He Hinc. simpl.
  apply filter_In. split; [assumption|].
  unfold entity_matches. destruct (String.eqb _ ""); [reflexivity|].
  rewrite toLowerCase_app. now apply includes_app.
Qed.

Lemma searchBible_case_insensitive_witness :
  In mercy_entity (sr_entities (result (searchBible 9 "p1" " MERCY ") two_entities)).
Proof.
  destruct (searchBible_case_insensitive 9 "p1" " MERCY " two_entities) as [_ H].
  apply H; [vm_compute; left; reflexivity | vm_compute; reflexivity].
Defined.

(** ** The order of the snapshot *)

Lemma insert_sorted_perm {A : Type} (before : A -> A -> bool) (x : A) (l : list A) :
  Permutation (JsArray.insert_sorted before x l) (x :: l).
Proof.
  induction l as [|y l IH]; simpl; [reflexivity|].
  destruct (before x y); [reflexivity|].
  rewrite IH. apply perm_swap.
Qed.

Lemma stable_sort_perm {A : Type} (before : A -> A -> bool) (l : list A) :
  Permutation (JsArray.stable_sort before l) l.
Proof.
  induction l as [|x l IH]; simpl; [reflexivity|].
  unfold JsArray.stable_sort in *. simpl.
  rewrite insert_sorted_perm. now constructor.
Qed.

Lemma insert_by_evidence_sorted (x : Entity) (l : list Entity) :
  StronglySorted no_less_evidence l ->
  StronglySorted no_less_evidence (JsArray.insert_sorted more_evidence x l).
Proof.
  induction 1 as [|y l Hs IH Hall]; simpl; [repeat constructor|].
  unfold more_evidence at 1.
  destruct (Nat.leb_spec (length (ent_evidence y)) (length (ent_evidence x))) as [Hle|Hgt].
  - constructor; [now constructor|]. constructor; [exact Hle|].
    revert Hall. apply List.Forall_impl. unfold no_less_evidence. intros z Hz. lia.
  - constructor; [assumption|].
    rewrite (insert_sorted_perm more_evidence x l).
    constructor; [unfold no_less_evidence; lia | assumption].
Qed.

Lemma insert_by_evidence_stable (n : nat) (x : Entity) (l : list Entity) :
  List.filter (has_evidence n) (JsArray.insert_sorted more_evidence x l) =
  List.filter (has_evidence n) (x :: l).
Proof.
  induction l as [|y l IH]; simpl; [reflexivity|].
  unfold more_evidence at 1.
  destruct (Nat.leb_spec (length (ent_evidence y)) (length (ent_evidence x))) as [Hle|Hgt];
    [reflexivity|].
  simpl. rewrite IH. simpl. unfold has_evidence.
  destruct (Nat.eqb_spec (length (ent_evidence x)) n),
           (Nat.eqb_spec (length (ent_evidence y)) n); try reflexivity. lia.
Qed.

(** X20. The order in which [getSnapshotForLLM] takes the entities is a
    stable sort by evidence count: the same entities, none with more
    evidence after one with less, and entities of equal evidence count in
    the order the aggregate has them; so an entity left out by the cut
    has no more evidence than any that is taken. *)
Theorem snapshot_order (l : list Entity) (n : nat) :
  let sorted := JsArray.stable_sort more_evidence l in
  Permutation sorted l /\
  StronglySorted no_less_evidence sorted /\
  (forall k, List.filter (has_evidence k) sorted = List.filter (has_evidence k) l) /\
  (forall a z, In a (firstn n sorted) -> In z (skipn n sorted) -> no_less_evidence a z).
Proof.
  intros sorted.
  assert (StronglySorted no_less_evidence sorted) as Hsorted.
  { subst sorted. unfold JsArray.stable_sort.
    induction l as [|x l IH]; simpl; [constructor|].
    now apply insert_by_evidence_sorted. }
  split; [apply stable_sort_perm|]. split; [exact Hsorted|]. split.
  - intros k. clear Hsorted. subst sorted. unfold JsArray.stable_sort.
    induction l as [|x l IH]; simpl; [reflexivity|].
    rewrite insert_by_evidence_stable. simpl. now rewrite IH.
  - clear -Hsorted. revert n. induction Hsorted as [|x s Hs IH Hall]; intros n a z.
    + destruct n; intros [].
    + destruct n as [|n]; simpl; [intros []|].
      intros [<-|Ha] Hz.
      * rewrite List.Forall_forall in Hall. apply Hall.
        rewrite <- (firstn_skipn n s). apply in_or_app. now right.
      * now apply (IH n).
Qed.

Lemma snapshot_order_witness :
  no_less_evidence mercy_entity paris_entity.
Proof.
  destruct (snapshot_order [paris_entity; mercy_entity] 1) as (_ & _ & _ & H).
  apply H; simpl; tauto.
Defined.





(** ** Ids and types *)

Lemma normalizeType_type_name (t : BibleEntityType) : normalizeType (type_name t) = t.
Proof. destruct t; reflexivity. Qed.

(** X22. The id under which an entity is stored addresses it again: given
    back as the id of a later input it is kept as it is, whatever type
    comes with it; and when the first input's id had no prefix of its
    own, so that the store put the type before it, the type is read back
    from the id when the later input names none. *)
Theorem stored_id_addresses_entity (e : EntityInput) (type_ : string)
        (attrs : JsObj AttrVal) (evidence : list Evidence) :
  canonical_id {| ei_id := canonical_id e; ei_type := type_;
                  ei_attrs := attrs; ei_evidence := evidence |} = canonical_id e /\
  (JsString.letters_then_colon false (ei_id e) = false ->
   canonical_type {| ei_id := canonical_id e; ei_type := "";
                     ei_attrs := attrs; ei_evidence := evidence |} = canonical_type e).
Proof.
  split.
  - unfold canonical_id at 1. cbn [ei_id]. unfold ensureIdPrefix.
    now rewrite canonical_id_prefixed.
  - intros H. unfold canonical_type at 1. cbn [ei_id ei_type].
    unfold canonical_id, ensureIdPrefix. rewrite H.
    destruct (canonical_type e); reflexivity.
Qed.

Lemma stored_id_addresses_entity_witness :
  canonical_type (by_id "Character:Mercy" "") = Character.
Proof.
  destruct (stored_id_addresses_entity mercy_guilt "" [] []) as [_ H].
  apply H. reflexivity.
Defined.

(** ** Clearing a project *)


(** ** Import *)










(** ** The service worker *)

Lemma play_always {A : Type} (p : Prog A) (P : list Event -> A -> Prop) :
  always p P ->
  forall (env : Env) (n : nat), P (fst (play_from env n p)) (snd (play_from env n p)).
Proof.
  revert P. induction p as [a|c k IH]; intros P H env n; simpl; [exact H|].
  apply (IH (env n c) (fun tr a => P (event c (env n c) :: tr) a)), H.
Qed.

Ltac crawl :=
  repeat first
    [ progress cbn
    | match goal with
      | |- forall _, _ => intro
      | |- context [andThen (match ?f ?x with _ => _ end) _] => is_var x; destruct x
      | |- always (match ?f ?x with _ => _ end) _ => is_var x; destruct x
      | |- context [andThen (match ?x with _ => _ end) _] => destruct x eqn:?
      | |- always (match ?x with _ => _ end) _ => destruct x eqn:?
      end ].

(** X26. The listener answers every message of a type it knows exactly
    once, whatever Chrome and Google's servers answer, returns [true] to
    keep the channel open, and does nothing after it has responded; for a
    message of any other type, or of none, it does nothing at all. *)
Theorem onMessage_responds_once (env : Env) (message : Message) :
  let r := play env (onMessage message) in
  snd r = handled message /\
  (if snd r
   then count is_response (fst r) = 1%nat /\ ends_with_response (fst r) = true
   else fst r = []).
Proof.
  cbv zeta. unfold play.
  apply (play_always (onMessage message)
    (fun tr a => a = handled message /\
       (if a then count is_response tr = 1%nat /\ ends_with_response tr = true
        else tr = []))).
  unfold onMessage, handled. destruct (msg_type message) as [t|]; [|now split].
  destruct (String.eqb_spec t "") as [->|_]; [now split|].
  destruct (String.eqb_spec t PING) as [->|_]; [now split|].
  destruct (String.eqb_spec t CONNECT_REQUEST) as [->|_].
  { unfold connect_request, or_fail, await, getAuthToken, sendResponse.
    crawl; repeat split. }
  destruct (String.eqb_spec t EXPORT_REQUEST) as [->|_].
  { unfold export_request, or_fail, await, catch, getAuthToken, sendResponse,
      driveExportText, docsGetFlatten, removeToken.
    crawl; repeat split. }
  destruct (String.eqb_spec t INSERT_TEXT_REQUEST) as [->|_].
  { unfold insert_text_request, or_fail, await, catch, getAuthToken, sendResponse,
      docsAppendText.
    crawl; repeat split. }
  destruct (String.eqb_spec t TOGGLE_REQUEST) as [->|_].
  { unfold toggle_request, or_fail, await, forwardPanelToggle, sendResponse.
    crawl; repeat split. }
  now split.
Qed.

(** X27. An export request asks for the document only, first with a
    token obtained silently, with at most four fetches, three requests
    for a token and one removal of a cached token.  When it answers with
    a text, the text and its origin are those of the fetch made just
    before the response; it reports a failure only when no fetch gave a
    text. *)
Theorem export_request_outcome (env : Env) (fileId : option string) :
  let tr := fst (play env (export_request fileId)) in
  match response_of tr with
  | Some (OkText origin text) =>
      match before_last tr with
      | Some e => fetched_text e = Some (origin, text)
      | None => False
      end
  | Some (Failed _) => forallb (fun e => negb (is_Some_b (fetched_text e))) tr = true
  | _ => False
  end /\
  (count is_fetch tr <= 4)%nat /\
  (count is_token_request tr <= 3)%nat /\
  (count is_token_removal tr <= 1)%nat /\
  forallb (fetches_only fileId) (map call_of tr) = true /\
  hd_error (map call_of tr) = Some (IdentityGetAuthToken false).
Proof.
  cbv zeta. unfold play.
  apply (play_always (export_request fileId)
    (fun tr _ =>
       match response_of tr with
       | Some (OkText origin text) =>
           match before_last tr with
           | Some e => fetched_text e = Some (origin, text)
           | None => False
           end
       | Some (Failed _) =>
           forallb (fun e => negb (is_Some_b (fetched_text e))) tr = true
       | _ => False
       end /\
       (count is_fetch tr <= 4)%nat /\
       (count is_token_request tr <= 3)%nat /\
       (count is_token_removal tr <= 1)%nat /\
       forallb (fetches_only fileId) (map call_of tr) = true /\
       hd_error (map call_of tr) = Some (IdentityGetAuthToken false))).
  unfold export_request, or_fail, await, catch, getAuthToken, sendResponse,
    driveExportText, docsGetFlatten, removeToken.
  crawl.
  all: repeat split.
  all: try lia.
  all: destruct fileId; cbn; rewrite ?String.eqb_refl; reflexivity.
Qed.

(** X28. A request to insert text that names no document or no text is
    refused before anything is asked of Chrome or of the network: the
    one call made is the response that reports the missing field. *)
Theorem insert_text_guard (env : Env) (message : Message) :
  truthy (msg_fileId message) && truthy (msg_text message) = false ->
  map call_of (fst (play env (insert_text_request message))) =
  [SendResponse (Failed "Error: missing fileId/text")].
Proof.
  intros H. unfold play, insert_text_request, truthy in *.
  destruct (msg_fileId message) as [f|]; [|reflexivity].
  destruct (msg_text message) as [t|].
  - destruct (String.eqb f ""), (String.eqb t ""); try discriminate; reflexivity.
  - destruct (String.eqb f ""); reflexivity.
Qed.

Lemma insert_text_guard_witness :
  map call_of (fst (play refusing (insert_text_request insert_without_text))) =
  [SendResponse (Failed "Error: missing fileId/text")].
Proof. apply (insert_text_guard refusing insert_without_text). reflexivity. Defined.

(** X29. A request to insert a text into a document asks for a token
    silently first, makes at most one [batchUpdate], which carries the
    document and the text of the message, fetches nothing else, and
    answers [ok] exactly when that [batchUpdate] was accepted. *)
Theorem insert_text_outcome (env : Env) (type_ : option string) (fileId text : string) :
  fileId <> "" -> text <> "" ->
  let tr :=
    fst (play env
           (insert_text_request
              {| msg_type := type_; msg_fileId := Some fileId; msg_text := Some text |})) in
  forallb (appends fileId text) (map call_of tr) = true /\
  (count is_fetch tr <= 1)%nat /\
  (count is_token_request tr <= 2)%nat /\
  hd_error (map call_of tr) = Some (IdentityGetAuthToken false) /\
  match response_of tr with
  | Some Ok =>
      match before_last tr with Some e => appended e = true | None => False end
  | Some (Failed _) => forallb (fun e => negb (appended e)) tr = true
  | _ => False
  end.
Proof.
  intros Hf Ht. cbv zeta. unfold play.
  apply (play_always
    (insert_text_request
       {| msg_type := type_; msg_fileId := Some fileId; msg_text := Some text |})
    (fun tr _ =>
       forallb (appends fileId text) (map call_of tr) = true /\
       (count is_fetch tr <= 1)%nat /\
       (count is_token_request tr <= 2)%nat /\
       hd_error (map call_of tr) = Some (IdentityGetAuthToken false) /\
       match response_of tr with
       | Some Ok =>
           match before_last tr with Some e => appended e = true | None => False end
       | Some (Failed _) => forallb (fun e => negb (appended e)) tr = true
       | _ => False
       end)).
  unfold insert_text_request. cbn [msg_fileId msg_text].
  apply String.eqb_neq in Hf, Ht. rewrite Hf, Ht. cbn [orb].
  unfold or_fail, await, catch, getAuthToken, sendResponse, docsAppendText.
  crawl.
  all: rewrite ?String.eqb_refl; repeat split.
  all: try lia.
Qed.

Lemma insert_text_outcome_witness :
  (count is_fetch (fst (play refusing (insert_text_request insert_hello))) <= 1)%nat.
Proof.
  destruct (insert_text_outcome refusing (Some INSERT_TEXT_REQUEST) "doc1" "hello")
    as (_ & H & _); [discriminate | discriminate |].
  exact H.
Defined.
